(** * The in-memory consensus store of the poset package

    A shallow embedding of [src/poset/inmem_store.go] (the [InmemStore]
    implementation of the [Store] interface of [src/poset/store.go]) and the
    properties of it that the specification states.

    The store is modelled by explicit state passing: every method takes the
    store and returns its results together with the store it leaves behind.
    The three reader-writer locks only serialise accesses; the model is the
    sequential behaviour of each method.  [os.Exit] is an outcome of its
    own. *)

From Stdlib Require Import ZArith Lia.
From Stdlib Require Import Strings.Byte.
From stdpp Require Import base gmap list strings pretty.

Local Open Scope Z_scope.

(** ** Machine integers *)

Definition min_int64 : Z := - 2 ^ 63.
Definition max_int64 : Z := 2 ^ 63 - 1.

(** Go's [int64] arithmetic wraps around in two's complement. *)
Definition wrap64 (z : Z) : Z := (z + 2 ^ 63) mod 2 ^ 64 - 2 ^ 63.

Definition int64_range (z : Z) : Prop := min_int64 <= z <= max_int64.

(** ** Process outcomes: a call returns, the process exits, or the call
    panics *)

Inductive Outcome (A : Type) : Type :=
| Returns (a : A)
| Exits (code : Z)
| Panics.

Arguments Returns {A} a.
Arguments Exits {A} code.
Arguments Panics {A}.

(** ** Go maps with string keys

    A Go map value is [nil] or a map that was made.  Reading a nil map
    (lookup, [len], [range]) is reading an empty one; assigning into it
    panics. *)

Inductive GoMap (V : Type) : Type :=
| NilMap
| Made (m : gmap string V).

Arguments NilMap {V}.
Arguments Made {V} m.

(** What reading the map sees. *)
Definition map_content {V : Type} (m : GoMap V) : gmap string V :=
  match m with
  | NilMap => ∅
  | Made m => m
  end.

Coercion map_content : GoMap >-> gmap.

Definition is_NilMap {V : Type} (m : GoMap V) : bool :=
  match m with
  | NilMap => true
  | Made _ => false
  end.

#[global] Instance GoMap_lookup {V : Type} : Lookup string V (GoMap V) :=
  λ k m, map_content m !! k.

#[global] Instance GoMap_size {V : Type} : Size (GoMap V) :=
  λ m, size (map_content m).

(** ** The error taxonomy (package [common], imported as [cm]) *)

Module cm.

(** Modelled from the spec: the store errors of package [common], which is
    not under src/.  "Error taxonomy collaborator — supplies structured
    error construction with kinds {KeyNotFound, NoRoot, Empty, TooLow,
    SkippedIndex} and a predicate to test an error's kind." *)
Inductive StoreErrType : Type :=
| KeyNotFound
| NoRoot
| Empty
| TooLow
| SkippedIndex.

#[global] Instance StoreErrType_eq_dec : EqDecision StoreErrType.
Proof. solve_decision. Defined.

Record StoreErr : Type := NewStoreErr {
  dataType : string;
  errType : StoreErrType;
  key : string
}.

(** A Go [error] value; [nil] is [None]. *)
Definition error : Type := option StoreErr.

Definition Is (err : error) (t : StoreErrType) : bool :=
  match err with
  | Some e => bool_decide (errType e = t)
  | None => false
  end.

End cm.

(** ** The LRU cache (github.com/hashicorp/golang-lru) *)

Module lru.

Section cache.
Context {K V : Type} `{EqDecision K}.

(** Modelled from the spec: the LRU cache is a library outside src/.  "A
    bounded LRU ... Insertion is last-writer-wins; eviction is O(1) at the
    LRU tail.  On miss, returns key-not-found"; "a bounded cache that
    discards the least-recently-used entry on overflow".  The entries are
    kept most recently used first. *)
Record Cache : Type := mkCache {
  size : Z;
  entries : list (K * V)
}.

(** [lru.New] refuses a size that is not positive. *)
Definition New (n : Z) : option Cache :=
  if decide (n <= 0) then None else Some (mkCache n []).

Fixpoint find (k : K) (l : list (K * V)) : option V :=
  match l with
  | [] => None
  | (k', v) :: l' => if decide (k' = k) then Some v else find k l'
  end.

Fixpoint remove_key (k : K) (l : list (K * V)) : list (K * V) :=
  match l with
  | [] => []
  | (k', v) :: l' =>
      if decide (k' = k) then remove_key k l' else (k', v) :: remove_key k l'
  end.

(** [Get] moves the entry it finds to the front. *)
Definition Get (k : K) (c : Cache) : option V * Cache :=
  match find k (entries c) with
  | Some v => (Some v, mkCache (size c) ((k, v) :: remove_key k (entries c)))
  | None => (None, c)
  end.

(** [Add] overwrites an entry that is present and moves it to the front; a
    new entry goes to the front and the oldest one is dropped when the size
    is exceeded. *)
Definition Add (k : K) (v : V) (c : Cache) : Cache :=
  match find k (entries c) with
  | Some _ => mkCache (size c) ((k, v) :: remove_key k (entries c))
  | None =>
      let l := (k, v) :: entries c in
      mkCache (size c)
        (if decide (size c < Z.of_nat (length l)) then removelast l else l)
  end.

End cache.

Arguments Cache K V : clear implicits.

End lru.

(** ** The rolling index (package [common]) *)

Module RollingIndex.

Section rolling.
Context {A : Type}.

(** Modelled from the spec: [cm.RollingIndex] is not under src/.  "A bounded
    FIFO of items addressed by a dense monotonically increasing position,
    with a total-count kept separately from retained size." *)
Record t : Type := mk {
  name : string;
  size : Z;
  items : list A;
  total : Z
}.

(** A new index: "both window and total count" are 0. *)
Definition NewRollingIndex (name : string) (size : Z) : t :=
  mk name size [] 0.

(** Appending to a window of bounded size drops the oldest item. *)
Definition push (size : Z) (items : list A) (item : A) : list A :=
  if decide (size <= Z.of_nat (length items))
  then drop 1 items ++ [item]
  else items ++ [item].

(** Modelled from the spec: "Set(item, position) — must be called with
    position = totalCount; advances total count."  Another position is
    refused and leaves the index as it is.  ([Set] is reserved in Rocq,
    hence the underscore.) *)
Definition Set_ (item : A) (position : Z) (r : t) : cm.error * t :=
  if decide (position = total r) then
    (None, mk (name r) (size r) (push (size r) (items r) item) (total r + 1))
  else
    (Some (cm.NewStoreErr (name r)
             (if decide (position < total r) then cm.TooLow else cm.SkippedIndex)
             (pretty position)), r).

(** Modelled from the spec: "GetLastWindow() → [item] — the retained suffix
    in order."  The store discards the second result of the Go method. *)
Definition GetLastWindow (r : t) : list A := items r.

End rolling.

Arguments t A : clear implicits.

End RollingIndex.

(** ** Peers (package [peers]) *)

Module peers.

(** Modelled from the spec: package [peers] is not under src/.  A
    participant is "a consensus node identified by a public key and a
    numeric id"; the peer set is seen through its two mappings. *)
Record Peer : Type := mkPeer {
  ID : Z;
  PubKeyHex : string
}.

Record Peers : Type := mkPeers {
  ByPubKey : gmap string Peer;
  ByID : gmap Z Peer
}.

(** Distinct public keys of a peer set carry distinct numeric ids. *)
Definition ids_unique (ps : Peers) : Prop :=
  ∀ pk1 pk2 p1 p2,
    ByPubKey ps !! pk1 = Some p1 → ByPubKey ps !! pk2 = Some p2 →
    ID p1 = ID p2 → pk1 = pk2.

End peers.

(** ** What the store takes from the rest of the package *)

(** Modelled from the spec: the descriptor of a root's self-parent, declared
    outside src/.  "A SelfParent descriptor containing Hash (bytes) and
    Index". *)
Record RootEvent : Type := mkRootEvent {
  Hash : list byte;
  Index : Z
}.

(** The declarations of package [poset] that the store uses and that are not
    under src/, taken as parameters: the types, opaque to the store "except
    for the accessors", with their zero values; and the order in which Go's
    [range] visits a map, which is any order.  The one law, on [NewBaseRoot],
    is the spec's. *)
Class PosetTypes : Type := {
  EventHash : Type;
  EventHash_eq_dec :: EqDecision EventHash;
  EventHash_countable :: Countable EventHash;
  (** [EventHash{}] *)
  EventHash_zero : EventHash;
  (** [hash.Set(raw)]: the receiver before the call, the raw bytes *)
  EventHash_Set : EventHash → list byte → EventHash;
  EventHash_String : EventHash → string;
  Event : Type;
  (** [Event{}] *)
  Event_zero : Event;
  Event_Hash : Event → EventHash;
  Event_GetCreator : Event → string;
  Event_Index : Event → Z;
  Root : Type;
  (** [Root{}] *)
  Root_zero : Root;
  Root_SelfParent : Root → RootEvent;
  NewBaseRoot : Z → Root;
  (** "constructs a base root with SelfParent.Index = −1" *)
  NewBaseRoot_Index : ∀ id, Index (Root_SelfParent (NewBaseRoot id)) = -1;
  RoundCreated : Type;
  NewRoundCreated : RoundCreated;
  RoundCreated_Clotho : RoundCreated → list EventHash;
  (** [len(round.Message.Events)] *)
  RoundCreated_Events_len : RoundCreated → Z;
  RoundReceived : Type;
  NewRoundReceived : RoundReceived;
  Block : Type;
  (** [Block{}] *)
  Block_zero : Block;
  Block_Index : Block → Z;
  Frame : Type;
  (** [Frame{}] *)
  Frame_zero : Frame;
  Frame_Round : Frame → Z;
  map_range : ∀ (K : Type) `{Countable K} (V : Type), gmap K V → list (K * V);
  map_range_perm : ∀ (K : Type) `{Countable K} (V : Type) (m : gmap K V),
    map_range K V m ≡ₚ map_to_list m
}.

Arguments map_range {_ K _ _ V} m.

(** ** The participant-events index *)

Module ParticipantEventsCache.

Section pec.
Context {H : Type}.

(** Modelled from the spec: [ParticipantEventsCache] is not under src/.  "Per
    participant, a bounded rolling ordered window addressed by a
    monotonically increasing index"; "the highest index ever assigned is
    remembered per participant", −1 when none was. *)
Record Window : Type := mkWindow {
  items : list H;
  lastIndex : Z
}.

Definition emptyWindow : Window := mkWindow [] (-1).

(** The peer set is the object the store holds too ([participants] is one
    pointer); the methods that consult it take it from their caller. *)
Record t : Type := mk {
  size : Z;
  rim : gmap string Window
}.

Definition window (p : string) (c : t) : Window :=
  default emptyWindow (rim c !! p).

(** The lowest index the window of a participant retains. *)
Definition lowIndex (w : Window) : Z :=
  lastIndex w - Z.of_nat (length (items w)) + 1.

Definition NewParticipantEventsCache (size : Z) (participants : peers.Peers) : t :=
  mk size ((λ _, emptyWindow) <$> peers.ByPubKey participants).

(** Modelled from the spec: "Set(p, hash, i) — i must equal the next
    expected index for p (or be re-setting the current head; duplicate sets
    are rejected as an invariant violation).  Appends to the window,
    evicting the oldest entry if capacity is reached."  "Too-low /
    Skipped-index — a participant-events Set received an index that is not
    the next expected one." *)
Definition Set_ (p : string) (hash : H) (i : Z) (c : t) : cm.error * t :=
  let w := window p c in
  if decide (i = lastIndex w + 1) then
    (None, mk (size c)
             (<[p := mkWindow (RollingIndex.push (size c) (items w) hash) i]> (rim c)))
  else
    (Some (cm.NewStoreErr "ParticipantEvents"
             (if decide (i < lastIndex w + 1) then cm.TooLow else cm.SkippedIndex)
             (pretty i)), c).

(** Modelled from the spec: "Get(p, skip) → [hash] — returns entries with
    index > skip from the currently retained window; if skip lies below the
    window low bound, returns from the window's low bound". *)
Definition Get (p : string) (skip : Z) (c : t) : list H * cm.error :=
  let w := window p c in
  (drop (Z.to_nat (skip + 1 - lowIndex w)) (items w), None).

(** Modelled from the spec: "GetItem(p, i) → hash — exact index lookup from
    the window; outside window → too-low or not-found".  With an error comes
    the zero hash. *)
Definition GetItem (zero : H) (p : string) (i : Z) (c : t) : H * cm.error :=
  let w := window p c in
  if decide (i < lowIndex w) then
    (zero, Some (cm.NewStoreErr "ParticipantEvents" cm.TooLow (pretty i)))
  else
    match items w !! Z.to_nat (i - lowIndex w) with
    | Some h => (h, None)
    | None => (zero, Some (cm.NewStoreErr "ParticipantEvents" cm.KeyNotFound (pretty i)))
    end.

(** Modelled from the spec: "GetLast(p) → hash — highest currently retained
    entry; returns empty if none exist". *)
Definition GetLast (zero : H) (p : string) (c : t) : H * cm.error :=
  match last (items (window p c)) with
  | Some h => (h, None)
  | None => (zero, Some (cm.NewStoreErr "ParticipantEvents" cm.Empty p))
  end.

(** Modelled from the spec: "Known() → map[participantID → maxIndex] — the
    highest index ever assigned per participant, or −1 sentinel if none".
    [order] is the peer set in the order it is visited. *)
Definition Known (order : list (string * peers.Peer)) (c : t) : gmap Z Z :=
  foldl (λ known '(pk, peer), <[peers.ID peer := lastIndex (window pk c)]> known)
        ∅ order.

(** Modelled from the spec: "Import(other) — bulk-copies another index's
    contents". *)
Definition Import (other : t) (c : t) : t :=
  mk (size c) (rim other ∪ rim c).

(** Modelled from the spec: "Reset() — clears all participant windows". *)
Definition Reset (c : t) : cm.error * t :=
  (None, mk (size c) ((λ w, mkWindow [] (lastIndex w)) <$> rim c)).

(** The window of [p] retains an entry at index [i]. *)
Definition in_window (p : string) (i : Z) (c : t) : Prop :=
  lowIndex (window p c) <= i <= lastIndex (window p c).

(** No event of [p] was ever put into the index. *)
Definition no_events (p : string) (c : t) : Prop :=
  window p c = emptyWindow.

End pec.

Arguments Window H : clear implicits.
Arguments t H : clear implicits.

End ParticipantEventsCache.

(** ** The store *)

Section store.
Context `{PosetTypes}.

(** [InmemStore struct].  [rootsBySelfParent] is [None] when the Go map is
    [nil].  The three lockers carry no data. *)
Record InmemStore : Type := mkInmemStore {
  cacheSize : Z;
  participants : peers.Peers;
  eventCache : lru.Cache EventHash Event;
  roundCreatedCache : lru.Cache Z RoundCreated;
  roundReceivedCache : lru.Cache Z RoundReceived;
  blockCache : lru.Cache Z Block;
  frameCache : lru.Cache Z Frame;
  consensusCache : RollingIndex.t EventHash;
  totConsensusEvents : Z;
  repertoireByPubKey : gmap string peers.Peer;
  repertoireByID : gmap Z peers.Peer;
  participantEventsCache : ParticipantEventsCache.t EventHash;
  rootsByParticipant : GoMap Root;
  rootsBySelfParent : option (gmap EventHash Root);
  lastRound : Z;
  lastConsensusEvents : gmap string EventHash;
  lastBlock : Z
}.

(** Assignments to single fields. *)

Definition set_participants (v : peers.Peers) (s : InmemStore) : InmemStore :=
  mkInmemStore (cacheSize s) v (eventCache s) (roundCreatedCache s)
    (roundReceivedCache s) (blockCache s) (frameCache s) (consensusCache s)
    (totConsensusEvents s) (repertoireByPubKey s) (repertoireByID s)
    (participantEventsCache s) (rootsByParticipant s) (rootsBySelfParent s)
    (lastRound s) (lastConsensusEvents s) (lastBlock s).

Definition set_eventCache (v : lru.Cache EventHash Event) (s : InmemStore) : InmemStore :=
  mkInmemStore (cacheSize s) (participants s) v (roundCreatedCache s)
    (roundReceivedCache s) (blockCache s) (frameCache s) (consensusCache s)
    (totConsensusEvents s) (repertoireByPubKey s) (repertoireByID s)
    (participantEventsCache s) (rootsByParticipant s) (rootsBySelfParent s)
    (lastRound s) (lastConsensusEvents s) (lastBlock s).

Definition set_roundCreatedCache (v : lru.Cache Z RoundCreated) (s : InmemStore) : InmemStore :=
  mkInmemStore (cacheSize s) (participants s) (eventCache s) v
    (roundReceivedCache s) (blockCache s) (frameCache s) (consensusCache s)
    (totConsensusEvents s) (repertoireByPubKey s) (repertoireByID s)
    (participantEventsCache s) (rootsByParticipant s) (rootsBySelfParent s)
    (lastRound s) (lastConsensusEvents s) (lastBlock s).

Definition set_roundReceivedCache (v : lru.Cache Z RoundReceived) (s : InmemStore) : InmemStore :=
  mkInmemStore (cacheSize s) (participants s) (eventCache s) (roundCreatedCache s)
    v (blockCache s) (frameCache s) (consensusCache s)
    (totConsensusEvents s) (repertoireByPubKey s) (repertoireByID s)
    (participantEventsCache s) (rootsByParticipant s) (rootsBySelfParent s)
    (lastRound s) (lastConsensusEvents s) (lastBlock s).

Definition set_blockCache (v : lru.Cache Z Block) (s : InmemStore) : InmemStore :=
  mkInmemStore (cacheSize s) (participants s) (eventCache s) (roundCreatedCache s)
    (roundReceivedCache s) v (frameCache s) (consensusCache s)
    (totConsensusEvents s) (repertoireByPubKey s) (repertoireByID s)
    (participantEventsCache s) (rootsByParticipant s) (rootsBySelfParent s)
    (lastRound s) (lastConsensusEvents s) (lastBlock s).

Definition set_frameCache (v : lru.Cache Z Frame) (s : InmemStore) : InmemStore :=
  mkInmemStore (cacheSize s) (participants s) (eventCache s) (roundCreatedCache s)
    (roundReceivedCache s) (blockCache s) v (consensusCache s)
    (totConsensusEvents s) (repertoireByPubKey s) (repertoireByID s)
    (participantEventsCache s) (rootsByParticipant s) (rootsBySelfParent s)
    (lastRound s) (lastConsensusEvents s) (lastBlock s).

Definition set_consensusCache (v : RollingIndex.t EventHash) (s : InmemStore) : InmemStore :=
  mkInmemStore (cacheSize s) (participants s) (eventCache s) (roundCreatedCache s)
    (roundReceivedCache s) (blockCache s) (frameCache s) v
    (totConsensusEvents s) (repertoireByPubKey s) (repertoireByID s)
    (participantEventsCache s) (rootsByParticipant s) (rootsBySelfParent s)
    (lastRound s) (lastConsensusEvents s) (lastBlock s).

Definition set_totConsensusEvents (v : Z) (s : InmemStore) : InmemStore :=
  mkInmemStore (cacheSize s) (participants s) (eventCache s) (roundCreatedCache s)
    (roundReceivedCache s) (blockCache s) (frameCache s) (consensusCache s)
    v (repertoireByPubKey s) (repertoireByID s)
    (participantEventsCache s) (rootsByParticipant s) (rootsBySelfParent s)
    (lastRound s) (lastConsensusEvents s) (lastBlock s).

Definition set_repertoireByPubKey (v : gmap string peers.Peer) (s : InmemStore) : InmemStore :=
  mkInmemStore (cacheSize s) (participants s) (eventCache s) (roundCreatedCache s)
    (roundReceivedCache s) (blockCache s) (frameCache s) (consensusCache s)
    (totConsensusEvents s) v (repertoireByID s)
    (participantEventsCache s) (rootsByParticipant s) (rootsBySelfParent s)
    (lastRound s) (lastConsensusEvents s) (lastBlock s).

Definition set_repertoireByID (v : gmap Z peers.Peer) (s : InmemStore) : InmemStore :=
  mkInmemStore (cacheSize s) (participants s) (eventCache s) (roundCreatedCache s)
    (roundReceivedCache s) (blockCache s) (frameCache s) (consensusCache s)
    (totConsensusEvents s) (repertoireByPubKey s) v
    (participantEventsCache s) (rootsByParticipant s) (rootsBySelfParent s)
    (lastRound s) (lastConsensusEvents s) (lastBlock s).

Definition set_participantEventsCache (v : ParticipantEventsCache.t EventHash) (s : InmemStore) : InmemStore :=
  mkInmemStore (cacheSize s) (participants s) (eventCache s) (roundCreatedCache s)
    (roundReceivedCache s) (blockCache s) (frameCache s) (consensusCache s)
    (totConsensusEvents s) (repertoireByPubKey s) (repertoireByID s)
    v (rootsByParticipant s) (rootsBySelfParent s)
    (lastRound s) (lastConsensusEvents s) (lastBlock s).

Definition set_rootsByParticipant (v : GoMap Root) (s : InmemStore) : InmemStore :=
  mkInmemStore (cacheSize s) (participants s) (eventCache s) (roundCreatedCache s)
    (roundReceivedCache s) (blockCache s) (frameCache s) (consensusCache s)
    (totConsensusEvents s) (repertoireByPubKey s) (repertoireByID s)
    (participantEventsCache s) v (rootsBySelfParent s)
    (lastRound s) (lastConsensusEvents s) (lastBlock s).

Definition set_rootsBySelfParent (v : option (gmap EventHash Root)) (s : InmemStore) : InmemStore :=
  mkInmemStore (cacheSize s) (participants s) (eventCache s) (roundCreatedCache s)
    (roundReceivedCache s) (blockCache s) (frameCache s) (consensusCache s)
    (totConsensusEvents s) (repertoireByPubKey s) (repertoireByID s)
    (participantEventsCache s) (rootsByParticipant s) v
    (lastRound s) (lastConsensusEvents s) (lastBlock s).

Definition set_lastRound (v : Z) (s : InmemStore) : InmemStore :=
  mkInmemStore (cacheSize s) (participants s) (eventCache s) (roundCreatedCache s)
    (roundReceivedCache s) (blockCache s) (frameCache s) (consensusCache s)
    (totConsensusEvents s) (repertoireByPubKey s) (repertoireByID s)
    (participantEventsCache s) (rootsByParticipant s) (rootsBySelfParent s)
    v (lastConsensusEvents s) (lastBlock s).

Definition set_lastConsensusEvents (v : gmap string EventHash) (s : InmemStore) : InmemStore :=
  mkInmemStore (cacheSize s) (participants s) (eventCache s) (roundCreatedCache s)
    (roundReceivedCache s) (blockCache s) (frameCache s) (consensusCache s)
    (totConsensusEvents s) (repertoireByPubKey s) (repertoireByID s)
    (participantEventsCache s) (rootsByParticipant s) (rootsBySelfParent s)
    (lastRound s) v (lastBlock s).

Definition set_lastBlock (v : Z) (s : InmemStore) : InmemStore :=
  mkInmemStore (cacheSize s) (participants s) (eventCache s) (roundCreatedCache s)
    (roundReceivedCache s) (blockCache s) (frameCache s) (consensusCache s)
    (totConsensusEvents s) (repertoireByPubKey s) (repertoireByID s)
    (participantEventsCache s) (rootsByParticipant s) (rootsBySelfParent s)
    (lastRound s) (lastConsensusEvents s) v.

(** [strconv.FormatInt(r, 10)] *)
Definition FormatInt (r : Z) : string := pretty r.

(** The hash a root's self-parent bytes give when set into a fresh
    [EventHash]: [var hash EventHash; hash.Set(root.SelfParent.Hash)]. *)
Definition root_hash (root : Root) : EventHash :=
  EventHash_Set EventHash_zero (Hash (Root_SelfParent root)).

(** [setPeers]: the loop over [participants.ByID]. *)
Definition setPeers (round : Z) (ps : peers.Peers) (s : InmemStore) : InmemStore :=
  foldl (λ s '(_, peer),
           set_repertoireByID (<[peers.ID peer := peer]> (repertoireByID s))
             (set_repertoireByPubKey
                (<[peers.PubKeyHex peer := peer]> (repertoireByPubKey s)) s))
        s (map_range (peers.ByID ps)).

(** [NewInmemStore].  Its first loop gives every public key of the peer set
    the base root of its peer.  A cache that cannot be made ends the
    process.  The hook it registers with the peer set is [onNewPeer]. *)
Definition NewInmemStore (ps : peers.Peers) (cacheSize : Z) : Outcome InmemStore :=
  let rootsByParticipant :=
    Made ((λ pid, NewBaseRoot (peers.ID pid)) <$> peers.ByPubKey ps) in
  match lru.New cacheSize with
  | None => Exits 31
  | Some eventCache =>
  match lru.New cacheSize with
  | None => Exits 32
  | Some roundCreatedCache =>
  match lru.New cacheSize with
  | None => Exits 35
  | Some roundReceivedCache =>
  match lru.New cacheSize with
  | None => Exits 33
  | Some blockCache =>
  match lru.New cacheSize with
  | None => Exits 34
  | Some frameCache =>
      let store :=
        mkInmemStore cacheSize ps eventCache roundCreatedCache
          roundReceivedCache blockCache frameCache
          (RollingIndex.NewRollingIndex "ConsensusCache" cacheSize)
          0 ∅ ∅
          (ParticipantEventsCache.NewParticipantEventsCache cacheSize ps)
          rootsByParticipant None (-1) ∅ (-1) in
      Returns (setPeers 0 ps store)
  end end end end end.

Definition CacheSize (s : InmemStore) : Z := cacheSize s.

Definition Participants (s : InmemStore) : peers.Peers * cm.error :=
  (participants s, None).

Definition RepertoireByPubKey (s : InmemStore) : gmap string peers.Peer :=
  repertoireByPubKey s.

Definition RepertoireByID (s : InmemStore) : gmap Z peers.Peer :=
  repertoireByID s.

(** The loop of [RootsBySelfParent] over [rootsByParticipant]. *)
Definition build_rootsBySelfParent (roots : list (string * Root)) : gmap EventHash Root :=
  foldl (λ m '(_, root), <[root_hash root := root]> m) ∅ roots.

Definition RootsBySelfParent (s : InmemStore) : (gmap EventHash Root * cm.error) * InmemStore :=
  match rootsBySelfParent s with
  | None =>
      let m :=
        build_rootsBySelfParent (map_range (map_content (rootsByParticipant s))) in
      ((m, None), set_rootsBySelfParent (Some m) s)
  | Some m => ((m, None), s)
  end.

(** Roots of distinct participants have distinct self-parent hashes. *)
Definition distinct_root_hashes (roots : gmap string Root) : Prop :=
  ∀ p1 p2 r1 r2, roots !! p1 = Some r1 → roots !! p2 = Some r2 →
    root_hash r1 = root_hash r2 → p1 = p2.

Definition GetEventBlock (hash : EventHash) (s : InmemStore) : (Event * cm.error) * InmemStore :=
  let '(res, c) := lru.Get hash (eventCache s) in
  let s := set_eventCache c s in
  match res with
  | None =>
      ((Event_zero,
        Some (cm.NewStoreErr "EventCache" cm.KeyNotFound (EventHash_String hash))), s)
  | Some e => ((e, None), s)
  end.

Definition addParticpantEvent (participant : string) (hash : EventHash) (index : Z)
    (s : InmemStore) : cm.error * InmemStore :=
  let '(err, c) :=
    ParticipantEventsCache.Set_ participant hash index (participantEventsCache s) in
  (err, set_participantEventsCache c s).

Definition SetEvent (event : Event) (s : InmemStore) : cm.error * InmemStore :=
  let eventHash := Event_Hash event in
  let '((_, err), s) := GetEventBlock eventHash s in
  if bool_decide (err ≠ None) && negb (cm.Is err cm.KeyNotFound) then (err, s)
  else
    let '(err', s) :=
      if cm.Is err cm.KeyNotFound
      then addParticpantEvent (Event_GetCreator event) eventHash (Event_Index event) s
      else (None, s) in
    match err' with
    | Some _ => (err', s)
    | None => (None, set_eventCache (lru.Add eventHash event (eventCache s)) s)
    end.

Definition ParticipantEvents (participant : string) (skip : Z) (s : InmemStore)
    : list EventHash * cm.error :=
  ParticipantEventsCache.Get participant skip (participantEventsCache s).

Definition ParticipantEvent (participant : string) (index : Z) (s : InmemStore)
    : EventHash * cm.error :=
  let '(hash, err) :=
    ParticipantEventsCache.GetItem EventHash_zero participant index
      (participantEventsCache s) in
  match err with
  | None => (hash, err)
  | Some _ =>
      match rootsByParticipant s !! participant with
      | None => (hash, Some (cm.NewStoreErr "InmemStore.Roots" cm.NoRoot participant))
      | Some root =>
          if decide (Index (Root_SelfParent root) = index)
          then (EventHash_Set hash (Hash (Root_SelfParent root)), None)
          else (hash, err)
      end
  end.

Definition LastEventFrom (participant : string) (s : InmemStore)
    : EventHash * bool * cm.error :=
  let '(last, err) :=
    ParticipantEventsCache.GetLast EventHash_zero participant
      (participantEventsCache s) in
  if bool_decide (err = None) || negb (cm.Is err cm.Empty) then (last, false, err)
  else
    match rootsByParticipant s !! participant with
    | Some root => (EventHash_Set last (Hash (Root_SelfParent root)), true, None)
    | None =>
        (last, false, Some (cm.NewStoreErr "InmemStore.Roots" cm.NoRoot participant))
    end.

Definition LastConsensusEventFrom (participant : string) (s : InmemStore)
    : EventHash * bool * cm.error :=
  match lastConsensusEvents s !! participant with
  | Some last => (last, false, None)
  | None =>
      match rootsByParticipant s !! participant with
      | Some root =>
          (EventHash_Set EventHash_zero (Hash (Root_SelfParent root)), true, None)
      | None =>
          (EventHash_zero, false,
           Some (cm.NewStoreErr "InmemStore.Roots" cm.NoRoot participant))
      end
  end.

(** One turn of the loop of [KnownEvents]; a Go map gives 0 for a key it does
    not hold. *)
Definition known_step (roots : gmap string Root) (known : gmap Z Z)
    (entry : string * peers.Peer) : gmap Z Z :=
  let '(p, pid) := entry in
  if decide (default 0 (known !! peers.ID pid) = -1) then
    match roots !! p with
    | Some root => <[peers.ID pid := Index (Root_SelfParent root)]> known
    | None => known
    end
  else known.

Definition KnownEvents (s : InmemStore) : gmap Z Z :=
  let known :=
    ParticipantEventsCache.Known (map_range (peers.ByPubKey (participants s)))
      (participantEventsCache s) in
  foldl (known_step (map_content (rootsByParticipant s))) known
        (map_range (peers.ByPubKey (participants s))).

Definition ConsensusEvents (s : InmemStore) : list EventHash :=
  RollingIndex.GetLastWindow (consensusCache s).

Definition ConsensusEventsCount (s : InmemStore) : Z := totConsensusEvents s.

(** The result of [consensusCache.Set] is dropped, as in the source. *)
Definition AddConsensusEvent (event : Event) (s : InmemStore) : cm.error * InmemStore :=
  let '(_, c) :=
    RollingIndex.Set_ (Event_Hash event) (totConsensusEvents s) (consensusCache s) in
  let s := set_consensusCache c s in
  let s := set_totConsensusEvents (wrap64 (totConsensusEvents s + 1)) s in
  let s :=
    set_lastConsensusEvents
      (<[Event_GetCreator event := Event_Hash event]> (lastConsensusEvents s)) s in
  (None, s).

Definition GetRoundCreated (r : Z) (s : InmemStore) : (RoundCreated * cm.error) * InmemStore :=
  let '(res, c) := lru.Get r (roundCreatedCache s) in
  let s := set_roundCreatedCache c s in
  match res with
  | None =>
      ((NewRoundCreated,
        Some (cm.NewStoreErr "RoundCreatedCache" cm.KeyNotFound (FormatInt r))), s)
  | Some round => ((round, None), s)
  end.

Definition SetRoundCreated (r : Z) (round : RoundCreated) (s : InmemStore)
    : cm.error * InmemStore :=
  let s := set_roundCreatedCache (lru.Add r round (roundCreatedCache s)) s in
  let s := if decide (r > lastRound s) then set_lastRound r s else s in
  (None, s).

Definition GetRoundReceived (r : Z) (s : InmemStore) : (RoundReceived * cm.error) * InmemStore :=
  let '(res, c) := lru.Get r (roundReceivedCache s) in
  let s := set_roundReceivedCache c s in
  match res with
  | None =>
      ((NewRoundReceived,
        Some (cm.NewStoreErr "RoundReceivedCache" cm.KeyNotFound (FormatInt r))), s)
  | Some round => ((round, None), s)
  end.

Definition SetRoundReceived (r : Z) (round : RoundReceived) (s : InmemStore)
    : cm.error * InmemStore :=
  let s := set_roundReceivedCache (lru.Add r round (roundReceivedCache s)) s in
  let s := if decide (r > lastRound s) then set_lastRound r s else s in
  (None, s).

Definition LastRound (s : InmemStore) : Z := lastRound s.

Definition RoundClothos (r : Z) (s : InmemStore) : list EventHash * InmemStore :=
  let '((round, err), s) := GetRoundCreated r s in
  match err with
  | Some _ => ([], s)
  | None => (RoundCreated_Clotho round, s)
  end.

Definition RoundEvents (r : Z) (s : InmemStore) : Z * InmemStore :=
  let '((round, err), s) := GetRoundCreated r s in
  match err with
  | Some _ => (0, s)
  | None => (RoundCreated_Events_len round, s)
  end.

Definition GetRoot (participant : string) (s : InmemStore) : Root * cm.error :=
  match rootsByParticipant s !! participant with
  | None => (Root_zero, Some (cm.NewStoreErr "RootCache" cm.KeyNotFound participant))
  | Some res => (res, None)
  end.

Definition GetBlock (index : Z) (s : InmemStore) : (Block * cm.error) * InmemStore :=
  let '(res, c) := lru.Get index (blockCache s) in
  let s := set_blockCache c s in
  match res with
  | None =>
      ((Block_zero,
        Some (cm.NewStoreErr "BlockCache" cm.KeyNotFound (FormatInt index))), s)
  | Some b => ((b, None), s)
  end.

Definition SetBlock (block : Block) (s : InmemStore) : cm.error * InmemStore :=
  let index := Block_Index block in
  let '((_, err), s) := GetBlock index s in
  if bool_decide (err ≠ None) && negb (cm.Is err cm.KeyNotFound) then (err, s)
  else
    let s := set_blockCache (lru.Add index block (blockCache s)) s in
    let s := if decide (index > lastBlock s) then set_lastBlock index s else s in
    (None, s).

Definition LastBlockIndex (s : InmemStore) : Z := lastBlock s.

Definition GetFrame (index : Z) (s : InmemStore) : (Frame * cm.error) * InmemStore :=
  let '(res, c) := lru.Get index (frameCache s) in
  let s := set_frameCache c s in
  match res with
  | None =>
      ((Frame_zero,
        Some (cm.NewStoreErr "FrameCache" cm.KeyNotFound (FormatInt index))), s)
  | Some f => ((f, None), s)
  end.

Definition SetFrame (frame : Frame) (s : InmemStore) : cm.error * InmemStore :=
  let index := Frame_Round frame in
  let '((_, err), s) := GetFrame index s in
  if bool_decide (err ≠ None) && negb (cm.Is err cm.KeyNotFound) then (err, s)
  else (None, set_frameCache (lru.Add index frame (frameCache s)) s).

(** [Reset].  [roots] is stored as it is given, a nil map too.  The three
    caches are made before any field is assigned; the
    block cache, the frame cache, [lastConsensusEvents] and
    [totConsensusEvents] are not assigned at all.  The error returned is the
    one of [participantEventsCache.Reset]. *)
Definition Reset (roots : GoMap Root) (s : InmemStore)
    : Outcome (cm.error * InmemStore) :=
  match lru.New (cacheSize s) with
  | None => Exits 41
  | Some eventCache =>
  match lru.New (cacheSize s) with
  | None => Exits 42
  | Some roundCache =>
  match lru.New (cacheSize s) with
  | None => Exits 45
  | Some roundReceivedCache =>
      let s := set_rootsByParticipant roots s in
      let s := set_rootsBySelfParent None s in
      let s := set_eventCache eventCache s in
      let s := set_roundCreatedCache roundCache s in
      let s := set_roundReceivedCache roundReceivedCache s in
      let s :=
        set_consensusCache
          (RollingIndex.NewRollingIndex "ConsensusCache" (cacheSize s)) s in
      let '(err, c) := ParticipantEventsCache.Reset (participantEventsCache s) in
      let s := set_participantEventsCache c s in
      let s := set_lastRound (-1) s in
      let s := set_lastBlock (-1) s in
      let '((_, err'), s) := RootsBySelfParent s in
      match err' with
      | Some _ => Returns (err', s)
      | None => Returns (err, s)
      end
  end end end.

(** The store [Reset roots] leaves behind, field by field. *)
Definition after_Reset (roots : GoMap Root) (s : InmemStore) : InmemStore :=
  mkInmemStore (cacheSize s) (participants s)
    (lru.mkCache (cacheSize s) []) (lru.mkCache (cacheSize s) [])
    (lru.mkCache (cacheSize s) []) (blockCache s) (frameCache s)
    (RollingIndex.NewRollingIndex "ConsensusCache" (cacheSize s))
    (totConsensusEvents s) (repertoireByPubKey s) (repertoireByID s)
    (ParticipantEventsCache.Reset (participantEventsCache s)).2
    roots (Some (build_rootsBySelfParent (map_range (map_content roots))))
    (-1) (lastConsensusEvents s) (-1).

Definition Close (s : InmemStore) : cm.error := None.

Definition NeedBoostrap (s : InmemStore) : bool := false.

Definition StorePath (s : InmemStore) : string := EmptyString.

(** The hook [NewInmemStore] registers with [participants.OnNewPeer].  The
    peer set is the object the store points to, so the store sees it as it is
    after the peer was added: [ps].  The hook begins by assigning the base
    root into [rootsByParticipant]; when that is the nil map, which a
    [Reset] can have stored, the assignment panics. *)
Definition onNewPeer (ps : peers.Peers) (peer : peers.Peer) (s : InmemStore)
    : Outcome InmemStore :=
  let s := set_participants ps s in
  let root := NewBaseRoot (peers.ID peer) in
  match rootsByParticipant s with
  | NilMap => Panics
  | Made roots =>
      let s := set_rootsByParticipant (Made (<[peers.PubKeyHex peer := root]> roots)) s in
      let s := set_repertoireByPubKey (<[peers.PubKeyHex peer := peer]> (repertoireByPubKey s)) s in
      let s := set_repertoireByID (<[peers.ID peer := peer]> (repertoireByID s)) s in
      let s := set_rootsBySelfParent None s in
      let '(_, s) := RootsBySelfParent s in
      let old := participantEventsCache s in
      Returns
        (set_participantEventsCache
           (ParticipantEventsCache.Import old
              (ParticipantEventsCache.NewParticipantEventsCache (cacheSize s) ps)) s)
  end.

(** The store the hook leaves behind when [rootsByParticipant] is the made
    map [roots], field by field. *)
Definition peer_added (ps : peers.Peers) (peer : peers.Peer)
    (roots : gmap string Root) (s : InmemStore) : InmemStore :=
  mkInmemStore (cacheSize s) ps (eventCache s) (roundCreatedCache s)
    (roundReceivedCache s) (blockCache s) (frameCache s) (consensusCache s)
    (totConsensusEvents s)
    (<[peers.PubKeyHex peer := peer]> (repertoireByPubKey s))
    (<[peers.ID peer := peer]> (repertoireByID s))
    (ParticipantEventsCache.Import (participantEventsCache s)
       (ParticipantEventsCache.NewParticipantEventsCache (cacheSize s) ps))
    (Made (<[peers.PubKeyHex peer := NewBaseRoot (peers.ID peer)]> roots))
    (Some (build_rootsBySelfParent
             (map_range (<[peers.PubKeyHex peer := NewBaseRoot (peers.ID peer)]> roots))))
    (lastRound s) (lastConsensusEvents s) (lastBlock s).


(** ** Sequences of store operations *)

(** The methods of the [Store] interface, and the new-peer hook. *)
Inductive Op : Type :=
| OpCacheSize
| OpParticipants
| OpRepertoireByPubKey
| OpRepertoireByID
| OpRootsBySelfParent
| OpGetEventBlock (hash : EventHash)
| OpSetEvent (event : Event)
| OpParticipantEvents (participant : string) (skip : Z)
| OpParticipantEvent (participant : string) (index : Z)
| OpLastEventFrom (participant : string)
| OpLastConsensusEventFrom (participant : string)
| OpKnownEvents
| OpConsensusEvents
| OpConsensusEventsCount
| OpAddConsensusEvent (event : Event)
| OpGetRoundCreated (r : Z)
| OpSetRoundCreated (r : Z) (round : RoundCreated)
| OpGetRoundReceived (r : Z)
| OpSetRoundReceived (r : Z) (round : RoundReceived)
| OpLastRound
| OpRoundClothos (r : Z)
| OpRoundEvents (r : Z)
| OpGetRoot (participant : string)
| OpGetBlock (index : Z)
| OpSetBlock (block : Block)
| OpLastBlockIndex
| OpGetFrame (index : Z)
| OpSetFrame (frame : Frame)
| OpReset (roots : GoMap Root)
| OpClose
| OpNeedBoostrap
| OpStorePath
| OpNewPeer (ps : peers.Peers) (peer : peers.Peer).

Definition is_Reset (op : Op) : bool :=
  match op with OpReset _ => true | _ => false end.

(** A [Reset] that is given the nil map. *)
Definition is_Reset_nil (op : Op) : bool :=
  match op with OpReset NilMap => true | _ => false end.

Definition is_AddConsensusEvent (op : Op) : bool :=
  match op with OpAddConsensusEvent _ => true | _ => false end.

(** The store an operation leaves behind.  Only [Reset] can end the process
    and only the new-peer hook can panic. *)
Definition exec (op : Op) (s : InmemStore) : Outcome InmemStore :=
  match op with
  | OpRootsBySelfParent => Returns (RootsBySelfParent s).2
  | OpGetEventBlock hash => Returns (GetEventBlock hash s).2
  | OpSetEvent event => Returns (SetEvent event s).2
  | OpAddConsensusEvent event => Returns (AddConsensusEvent event s).2
  | OpGetRoundCreated r => Returns (GetRoundCreated r s).2
  | OpSetRoundCreated r round => Returns (SetRoundCreated r round s).2
  | OpGetRoundReceived r => Returns (GetRoundReceived r s).2
  | OpSetRoundReceived r round => Returns (SetRoundReceived r round s).2
  | OpRoundClothos r => Returns (RoundClothos r s).2
  | OpRoundEvents r => Returns (RoundEvents r s).2
  | OpGetBlock index => Returns (GetBlock index s).2
  | OpSetBlock block => Returns (SetBlock block s).2
  | OpGetFrame index => Returns (GetFrame index s).2
  | OpSetFrame frame => Returns (SetFrame frame s).2
  | OpReset roots =>
      match Reset roots s with
      | Returns (_, s') => Returns s'
      | Exits code => Exits code
      | Panics => Panics
      end
  | OpNewPeer ps peer => onNewPeer ps peer s
  | OpCacheSize | OpParticipants | OpRepertoireByPubKey | OpRepertoireByID
  | OpParticipantEvents _ _ | OpParticipantEvent _ _ | OpLastEventFrom _
  | OpLastConsensusEventFrom _ | OpKnownEvents | OpConsensusEvents
  | OpConsensusEventsCount | OpLastRound | OpGetRoot _ | OpLastBlockIndex
  | OpClose | OpNeedBoostrap | OpStorePath => Returns s
  end.

Fixpoint run (ops : list Op) (s : InmemStore) : Outcome InmemStore :=
  match ops with
  | [] => Returns s
  | op :: ops' =>
      match exec op s with
      | Returns s' => run ops' s'
      | Exits code => Exits code
      | Panics => Panics
      end
  end.

(** ** Bounds the store keeps *)

(** A cache made for [n] entries holds at most [n]. *)
Definition cache_bounded {K V : Type} (n : Z) (c : lru.Cache K V) : Prop :=
  lru.size c = n ∧ Z.of_nat (length (lru.entries c)) <= n.

(** The five caches are made for [cacheSize] entries, which is positive. *)
Definition store_bounded (s : InmemStore) : Prop :=
  0 < cacheSize s
  ∧ cache_bounded (cacheSize s) (eventCache s)
  ∧ cache_bounded (cacheSize s) (roundCreatedCache s)
  ∧ cache_bounded (cacheSize s) (roundReceivedCache s)
  ∧ cache_bounded (cacheSize s) (blockCache s)
  ∧ cache_bounded (cacheSize s) (frameCache s).

(** The reverse root index, when it is there, is the one the loop of
    [RootsBySelfParent] builds from the roots the store has now. *)
Definition roots_index_current (s : InmemStore) : Prop :=
  ∀ m, rootsBySelfParent s = Some m →
       m = build_rootsBySelfParent (map_range (map_content (rootsByParticipant s))).

(** No round in the two round caches is above [lastRound]; no block in the
    block cache has a key above [lastBlock]. *)
Definition rounds_within_lastRound (s : InmemStore) : Prop :=
  (∀ r x, lru.find r (lru.entries (roundCreatedCache s)) = Some x → r <= lastRound s)
  ∧ (∀ r x, lru.find r (lru.entries (roundReceivedCache s)) = Some x → r <= lastRound s).

Definition blocks_within_lastBlock (s : InmemStore) : Prop :=
  ∀ i b, lru.find i (lru.entries (blockCache s)) = Some b → i <= lastBlock s.

End store.

(** ** A concrete instance of the package's types

    Hashes of 32 bytes, set by copying raw bytes over their front; events,
    roots, rounds, blocks and frames as plain records; maps visited in the
    order of [map_to_list]. *)

Module Demo.

#[global] Instance byte_eq_dec : EqDecision byte := Byte.byte_eq_dec.

#[global] Instance byte_countable : Countable byte :=
  inj_countable Byte.to_N Byte.of_N Byte.of_to_N.

Definition hash_zero : list byte := replicate 32 x00.

(** The raw bytes are copied over the front of the hash. *)
Definition hash_Set (old raw : list byte) : list byte :=
  take 32 raw ++ drop (length (take 32 raw)) old.

Definition hash_String (h : list byte) : string :=
  String.string_of_list_byte h.

Record event : Type := mkEvent {
  ev_hash : list byte;
  ev_creator : string;
  ev_index : Z;
  ev_payload : string
}.

Record root : Type := mkRoot {
  rt_NextRound : Z;
  rt_SelfParent : RootEvent
}.

(** A base root: index −1, a hash derived from the id. *)
Definition base_root (id : Z) : root :=
  mkRoot 0 (mkRootEvent
              (match Byte.of_N (Z.to_N (id mod 256)) with
               | Some b => [b]
               | None => []
               end) (-1)).

Record roundCreated : Type := mkRoundCreated {
  rc_clotho : list (list byte);
  rc_events : list (list byte)
}.

Record block : Type := mkBlock {
  bl_index : Z;
  bl_body : list (list byte)
}.

Record frame : Type := mkFrame {
  fr_round : Z;
  fr_events : list (list byte)
}.

#[global, refine] Instance types : PosetTypes := {|
  EventHash := list byte;
  EventHash_zero := hash_zero;
  EventHash_Set := hash_Set;
  EventHash_String := hash_String;
  Event := event;
  Event_zero := mkEvent [] EmptyString 0 EmptyString;
  Event_Hash := ev_hash;
  Event_GetCreator := ev_creator;
  Event_Index := ev_index;
  Root := root;
  Root_zero := mkRoot 0 (mkRootEvent [] 0);
  Root_SelfParent := rt_SelfParent;
  NewBaseRoot := base_root;
  RoundCreated := roundCreated;
  NewRoundCreated := mkRoundCreated [] [];
  RoundCreated_Clotho := rc_clotho;
  RoundCreated_Events_len := λ r, Z.of_nat (length (rc_events r));
  RoundReceived := list (list byte);
  NewRoundReceived := [];
  Block := block;
  Block_zero := mkBlock 0 [];
  Block_Index := bl_index;
  Frame := frame;
  Frame_zero := mkFrame 0 [];
  Frame_Round := fr_round;
  map_range := λ K _ _ V m, map_to_list m
|}.
Proof.
  - reflexivity.
  - reflexivity.
Defined.

(** The participants [P1] and [P2] of the scenarios. *)
Definition P1 : peers.Peer := peers.mkPeer 1 "P1".
Definition P2 : peers.Peer := peers.mkPeer 2 "P2".

Definition one_peer : peers.Peers :=
  peers.mkPeers {[ "P1" := P1 ]} {[ 1 := P1 ]}.

Definition E1 : Event := mkEvent [x01] "P1" 0 "first".

Definition newRoot : Root := mkRoot 3 (mkRootEvent [x2a] 7).

(** The store [NewInmemStore] constructs for [P1] with [cacheSize = 2]. *)
Definition fresh : InmemStore :=
  mkInmemStore 2 one_peer (lru.mkCache 2 []) (lru.mkCache 2 [])
    (lru.mkCache 2 []) (lru.mkCache 2 []) (lru.mkCache 2 [])
    (RollingIndex.NewRollingIndex "ConsensusCache" 2) 0
    {[ "P1" := P1 ]} {[ 1 := P1 ]}
    (ParticipantEventsCache.mk 2 {[ "P1" := ParticipantEventsCache.emptyWindow ]})
    (Made {[ "P1" := base_root 1 ]}) None (-1) ∅ (-1).

Definition E2 : Event := mkEvent [x02] "P1" 1 "second".

Definition block2 : Block := mkBlock 2 [[x01]].

(** A store in use: an event inserted and ordered, round 5 and block 2 set. *)
Definition used : InmemStore :=
  (SetBlock block2
     (SetRoundCreated 5 (mkRoundCreated [[x01]] [[x01]])
        (AddConsensusEvent E1 (SetEvent E1 fresh).2).2).2).2.

(** Root maps for [Reset]: one participant; two participants whose roots
    have the same self-parent. *)
Definition roots1 : GoMap Root := Made {[ "P1" := newRoot ]}.

Definition roots2 : GoMap Root :=
  Made {[ "P1" := newRoot; "P2" := newRoot ]}.

(** The event [E1] with another payload; an event that skips indexes; a
    frame; a second block with the index of [block2]. *)
Definition E1b : Event := mkEvent [x01] "P1" 0 "again".

Definition E9 : Event := mkEvent [x09] "P1" 9 "gap".

Definition frame5 : Frame := mkFrame 5 [[x01]].

Definition block2b : Block := mkBlock 2 [[x02]].

Definition block1 : Block := mkBlock 1 [].

Definition two_peers : peers.Peers :=
  peers.mkPeers {[ "P1" := P1; "P2" := P2 ]} {[ 1 := P1; 2 := P2 ]}.

Definition round5 : RoundCreated := mkRoundCreated [[x01]] [[x01]; [x02]].

Definition received5 : RoundReceived := [[x01]].

End Demo.

(** * Properties *)

(** ** Machine integers *)

Lemma wrap64_in_range (z : Z) : int64_range z → wrap64 z = z.
Proof.
  unfold int64_range, min_int64, max_int64, wrap64. intros Hz.
  rewrite Z.mod_small; lia.
Qed.

Lemma wrap64_succ (z : Z) : min_int64 <= z < max_int64 → wrap64 (z + 1) = z + 1.
Proof.
  intros Hz. apply wrap64_in_range. unfold int64_range, min_int64, max_int64 in *. lia.
Qed.

(** ** The LRU cache *)

Section lru_facts.
Context {K V : Type} `{EqDecision K}.

Lemma lru_Get_miss (k : K) (c : lru.Cache K V) :
  lru.find k (lru.entries c) = None → lru.Get k c = (None, c).
Proof. unfold lru.Get. intros ->. reflexivity. Qed.

Lemma lru_Get_hit (k : K) (v : V) (c : lru.Cache K V) :
  lru.find k (lru.entries c) = Some v → (lru.Get k c).1 = Some v.
Proof. unfold lru.Get. intros ->. reflexivity. Qed.

Lemma lru_find_head (k : K) (v : V) (l : list (K * V)) :
  lru.find k ((k, v) :: l) = Some v.
Proof. simpl. rewrite decide_True; done. Qed.

(** What was just added is found, whenever the cache has room for one entry. *)
Lemma lru_find_Add (k : K) (v : V) (c : lru.Cache K V) :
  0 < lru.size c → lru.find k (lru.entries (lru.Add k v c)) = Some v.
Proof.
  intros Hsize. unfold lru.Add.
  destruct (lru.find k (lru.entries c)); simpl lru.entries.
  - apply lru_find_head.
  - destruct (lru.entries c) as [|kv l] eqn:Hl.
    + rewrite decide_False by (simpl; lia). apply lru_find_head.
    + case_decide; [|apply lru_find_head].
      change (removelast ((k, v) :: kv :: l)) with ((k, v) :: removelast (kv :: l)).
      apply lru_find_head.
Qed.

Lemma lru_size_Add (k : K) (v : V) (c : lru.Cache K V) :
  lru.size (lru.Add k v c) = lru.size c.
Proof. unfold lru.Add. destruct (lru.find k (lru.entries c)); reflexivity. Qed.

Lemma lru_size_Get (k : K) (c : lru.Cache K V) :
  lru.size (lru.Get k c).2 = lru.size c.
Proof. unfold lru.Get. destruct (lru.find k (lru.entries c)); reflexivity. Qed.

Lemma lru_New_Some (n : Z) (c : lru.Cache K V) :
  lru.New n = Some c → 0 < n ∧ c = lru.mkCache n [].
Proof. unfold lru.New. case_decide; intros [= <-]. split; [lia | done]. Qed.

Lemma lru_New_pos (n : Z) : 0 < n → lru.New (K := K) (V := V) n = Some (lru.mkCache n []).
Proof. intros Hn. unfold lru.New. rewrite decide_False by lia. done. Qed.

End lru_facts.

Section properties.
Context `{PosetTypes}.

(** ** Reset *)

Lemma Reset_returns (roots : GoMap Root) (s : InmemStore) :
  0 < cacheSize s → Reset roots s = Returns (None, after_Reset roots s).
Proof.
  intros Hpos. unfold Reset. rewrite !lru_New_pos by done. reflexivity.
Qed.

Lemma Reset_inv (roots : GoMap Root) (s s' : InmemStore) (err : cm.error) :
  Reset roots s = Returns (err, s') →
  0 < cacheSize s ∧ err = None ∧ s' = after_Reset roots s.
Proof.
  intros HR. destruct (decide (0 < cacheSize s)) as [Hpos|Hneg].
  - rewrite Reset_returns in HR by done. by injection HR as <- <-.
  - unfold Reset, lru.New in HR. rewrite decide_True in HR by lia. discriminate.
Qed.

Lemma Reset_exits (roots : GoMap Root) (s : InmemStore) :
  cacheSize s <= 0 → Reset roots s = Exits 41.
Proof. intros Hn. unfold Reset, lru.New. rewrite decide_True by done. done. Qed.

(** C1 (amended): after [Reset(newRoots)] returns, the rolling consensus
    index is a new one (its window is empty and its own count is 0), and
    [ConsensusEventsCount()] returns what it returned before the call:
    [Reset] does not assign [totConsensusEvents]. *)
Theorem Reset_keeps_ConsensusEventsCount
    (roots : GoMap Root) (s s' : InmemStore) (err : cm.error) :
  Reset roots s = Returns (err, s') →
  ConsensusEventsCount s' = ConsensusEventsCount s
  ∧ ConsensusEvents s' = []
  ∧ RollingIndex.total (consensusCache s') = 0.
Proof.
  intros (_ & _ & ->)%Reset_inv. repeat split.
Qed.

(** C10: [Reset(roots)] leaves the block cache, the frame cache and the
    last-consensus-events map as they are: a stored block or frame is still
    returned by [GetBlock] and [GetFrame] (while [LastBlockIndex()] is −1),
    and a participant with a consensus event recorded before still gets that
    hash, with [isRoot = false], from [LastConsensusEventFrom]. *)
Theorem Reset_keeps_blocks_frames_lastConsensusEvents
    (roots : GoMap Root) (s s' : InmemStore) (err : cm.error) :
  Reset roots s = Returns (err, s') →
  blockCache s' = blockCache s
  ∧ frameCache s' = frameCache s
  ∧ lastConsensusEvents s' = lastConsensusEvents s
  ∧ LastBlockIndex s' = -1
  ∧ (∀ i b, lru.find i (lru.entries (blockCache s)) = Some b →
       (GetBlock i s').1 = (b, None) ∧ (GetBlock i s).1 = (b, None))
  ∧ (∀ i f, lru.find i (lru.entries (frameCache s)) = Some f →
       (GetFrame i s').1 = (f, None) ∧ (GetFrame i s).1 = (f, None))
  ∧ (∀ p h, lastConsensusEvents s !! p = Some h →
       LastConsensusEventFrom p s' = (h, false, None)).
Proof.
  intros (_ & _ & ->)%Reset_inv.
  split; [done|]. split; [done|]. split; [done|]. split; [done|].
  split; [|split].
  - intros i b Hb. unfold GetBlock, lru.Get. simpl blockCache. rewrite Hb. done.
  - intros i f Hf. unfold GetFrame, lru.Get. simpl frameCache. rewrite Hf. done.
  - intros p h Hh. unfold LastConsensusEventFrom. simpl lastConsensusEvents.
    rewrite Hh. done.
Qed.

(** ** Rounds *)

Lemma lastRound_SetRoundCreated (s : InmemStore) (r : Z) (round : RoundCreated) :
  lastRound (SetRoundCreated r round s).2 = Z.max (lastRound s) r.
Proof. unfold SetRoundCreated. simpl. case_decide; simpl; lia. Qed.

Lemma lastRound_SetRoundReceived (s : InmemStore) (r : Z) (round : RoundReceived) :
  lastRound (SetRoundReceived r round s).2 = Z.max (lastRound s) r.
Proof. unfold SetRoundReceived. simpl. case_decide; simpl; lia. Qed.

Lemma NewInmemStore_inv (ps : peers.Peers) (n : Z) (s : InmemStore) :
  NewInmemStore ps n = Returns s →
  0 < n ∧
  s = setPeers 0 ps
        (mkInmemStore n ps (lru.mkCache n []) (lru.mkCache n [])
           (lru.mkCache n []) (lru.mkCache n []) (lru.mkCache n [])
           (RollingIndex.NewRollingIndex "ConsensusCache" n) 0 ∅ ∅
           (ParticipantEventsCache.NewParticipantEventsCache n ps)
           (Made ((λ pid, NewBaseRoot (peers.ID pid)) <$> peers.ByPubKey ps))
           None (-1) ∅ (-1)).
Proof.
  unfold NewInmemStore. destruct (decide (0 < n)) as [Hpos|Hneg].
  - rewrite !lru_New_pos by done. by intros [= <-].
  - unfold lru.New. rewrite decide_True by lia. discriminate.
Qed.

Lemma NewInmemStore_returns (ps : peers.Peers) (n : Z) :
  0 < n → ∃ s, NewInmemStore ps n = Returns s.
Proof.
  intros Hpos. unfold NewInmemStore. rewrite !lru_New_pos by done. eauto.
Qed.

(** [setPeers] assigns the two repertoires only. *)
Lemma setPeers_fields (round : Z) (ps : peers.Peers) (s : InmemStore) :
  let s' := setPeers round ps s in
  cacheSize s' = cacheSize s ∧ participants s' = participants s
  ∧ eventCache s' = eventCache s ∧ roundCreatedCache s' = roundCreatedCache s
  ∧ roundReceivedCache s' = roundReceivedCache s ∧ blockCache s' = blockCache s
  ∧ frameCache s' = frameCache s ∧ consensusCache s' = consensusCache s
  ∧ totConsensusEvents s' = totConsensusEvents s
  ∧ participantEventsCache s' = participantEventsCache s
  ∧ rootsByParticipant s' = rootsByParticipant s
  ∧ rootsBySelfParent s' = rootsBySelfParent s
  ∧ lastRound s' = lastRound s
  ∧ lastConsensusEvents s' = lastConsensusEvents s
  ∧ lastBlock s' = lastBlock s.
Proof.
  unfold setPeers. generalize (map_range (peers.ByID ps)) as l.
  intros l. revert s. induction l as [|[k peer] l IH]; intros s; simpl.
  - repeat split.
  - specialize (IH (set_repertoireByID (<[peers.ID peer:=peer]> (repertoireByID s))
             (set_repertoireByPubKey
                (<[peers.PubKeyHex peer:=peer]> (repertoireByPubKey s)) s))).
    simpl in IH. exact IH.
Qed.

(** C8: [SetRoundCreated(r, …)] and [SetRoundReceived(r′, …)] each set
    [lastRound] to the maximum of its value and the round number; so after
    [SetRoundCreated(r, …)] and then [SetRoundReceived(r′, …)] with r′ < r,
    on a store whose last round was at most r, [LastRound()] returns r; a
    newly constructed store has [LastRound() = −1], and there the two calls
    give r for every round number r ≥ 0. *)
Theorem LastRound_is_max (s : InmemStore) (r r' : Z)
    (rc : RoundCreated) (rr : RoundReceived) :
  LastRound (SetRoundCreated r rc s).2 = Z.max (LastRound s) r
  ∧ LastRound (SetRoundReceived r' rr s).2 = Z.max (LastRound s) r'
  ∧ (r' < r →
     LastRound (SetRoundReceived r' rr (SetRoundCreated r rc s).2).2
       = Z.max (LastRound s) r
     ∧ (LastRound s <= r →
        LastRound (SetRoundReceived r' rr (SetRoundCreated r rc s).2).2 = r))
  ∧ (∀ ps n s0, NewInmemStore ps n = Returns s0 →
       LastRound s0 = -1
       ∧ (0 <= r → r' < r →
          LastRound (SetRoundReceived r' rr (SetRoundCreated r rc s0).2).2 = r)).
Proof.
  unfold LastRound. split; [apply lastRound_SetRoundCreated|].
  split; [apply lastRound_SetRoundReceived|]. split.
  - intros Hlt. rewrite lastRound_SetRoundReceived, lastRound_SetRoundCreated.
    split; lia.
  - intros ps n s0 (_ & ->)%NewInmemStore_inv.
    rewrite lastRound_SetRoundReceived, lastRound_SetRoundCreated.
    pose proof (setPeers_fields 0 ps
      (mkInmemStore n ps (lru.mkCache n []) (lru.mkCache n [])
           (lru.mkCache n []) (lru.mkCache n []) (lru.mkCache n [])
           (RollingIndex.NewRollingIndex "ConsensusCache" n) 0 ∅ ∅
           (ParticipantEventsCache.NewParticipantEventsCache n ps)
           (Made ((λ pid, NewBaseRoot (peers.ID pid)) <$> peers.ByPubKey ps))
           None (-1) ∅ (-1))) as Hf.
    simpl in Hf. destruct Hf as (_&_&_&_&_&_&_&_&_&_&_&_&Hl&_).
    rewrite Hl. split; [done | lia].
Qed.

(** C9: for a round number r with no created round stored, [RoundClothos(r)]
    returns the empty list and [RoundEvents(r)] returns 0; the key-not-found
    of [GetRoundCreated] is not passed on (neither method has an error
    result), and the store is left as it was. *)
Theorem RoundClothos_RoundEvents_swallow_not_found (s : InmemStore) (r : Z) :
  lru.find r (lru.entries (roundCreatedCache s)) = None →
  cm.Is (GetRoundCreated r s).1.2 cm.KeyNotFound = true
  ∧ RoundClothos r s = ([], s)
  ∧ RoundEvents r s = (0, s).
Proof.
  intros Hmiss. unfold RoundClothos, RoundEvents, GetRoundCreated.
  rewrite (lru_Get_miss _ _ Hmiss). simpl. destruct s; done.
Qed.

(** ** Consensus events *)

(** *** The count under every operation *)

Ltac frame_cases :=
  repeat match goal with
         | |- context [match ?x with _ => _ end] => destruct x eqn:?; simpl
         | |- context [if ?b then _ else _] => destruct b eqn:?; simpl
         end;
  try done.

(** A made map is read as its content, the nil map as the empty map. *)
Lemma lookup_Made {V : Type} (m : gmap string V) (k : string) :
  Made m !! k = m !! k.
Proof. reflexivity. Qed.

Lemma lookup_NilMap {V : Type} (k : string) : (NilMap : GoMap V) !! k = None.
Proof. reflexivity. Qed.

Lemma lookup_map_content {V : Type} (m : GoMap V) (k : string) :
  map_content m !! k = m !! k.
Proof. reflexivity. Qed.

(** The new-peer hook panics on the nil map and otherwise returns the store
    [peer_added] describes. *)
Lemma onNewPeer_NilMap (ps : peers.Peers) (peer : peers.Peer) (s : InmemStore) :
  rootsByParticipant s = NilMap → onNewPeer ps peer s = Panics.
Proof. unfold onNewPeer. simpl. by intros ->. Qed.

Lemma onNewPeer_Made (ps : peers.Peers) (peer : peers.Peer) (s : InmemStore)
    (roots : gmap string Root) :
  rootsByParticipant s = Made roots →
  onNewPeer ps peer s = Returns (peer_added ps peer roots s).
Proof. unfold onNewPeer. simpl. by intros ->. Qed.

Lemma onNewPeer_inv (ps : peers.Peers) (peer : peers.Peer) (s s' : InmemStore) :
  onNewPeer ps peer s = Returns s' →
  ∃ roots, rootsByParticipant s = Made roots ∧ s' = peer_added ps peer roots s.
Proof.
  destruct (rootsByParticipant s) as [|roots] eqn:Hr.
  - by rewrite (onNewPeer_NilMap _ _ _ Hr).
  - rewrite (onNewPeer_Made _ _ _ _ Hr). intros [= <-]. eauto.
Qed.

Lemma tot_RootsBySelfParent (s : InmemStore) :
  totConsensusEvents (RootsBySelfParent s).2 = totConsensusEvents s.
Proof. unfold RootsBySelfParent. frame_cases. Qed.

Lemma tot_GetEventBlock (hash : EventHash) (s : InmemStore) :
  totConsensusEvents (GetEventBlock hash s).2 = totConsensusEvents s.
Proof. unfold GetEventBlock. frame_cases. Qed.

Lemma tot_SetEvent (event : Event) (s : InmemStore) :
  totConsensusEvents (SetEvent event s).2 = totConsensusEvents s.
Proof.
  unfold SetEvent, addParticpantEvent.
  pose proof (tot_GetEventBlock (Event_Hash event) s) as Hg.
  destruct (GetEventBlock (Event_Hash event) s) as [[ev err] s1]. simpl in Hg.
  destruct (bool_decide (err ≠ None) && negb (cm.Is err cm.KeyNotFound)); [done|].
  destruct (cm.Is err cm.KeyNotFound); [|done].
  destruct (ParticipantEventsCache.Set_ _ _ _ _) as [[e'|] c]; done.
Qed.

Lemma tot_GetRoundCreated (r : Z) (s : InmemStore) :
  totConsensusEvents (GetRoundCreated r s).2 = totConsensusEvents s.
Proof. unfold GetRoundCreated. frame_cases. Qed.

Lemma tot_SetRoundCreated (r : Z) (round : RoundCreated) (s : InmemStore) :
  totConsensusEvents (SetRoundCreated r round s).2 = totConsensusEvents s.
Proof. unfold SetRoundCreated. frame_cases. Qed.

Lemma tot_GetRoundReceived (r : Z) (s : InmemStore) :
  totConsensusEvents (GetRoundReceived r s).2 = totConsensusEvents s.
Proof. unfold GetRoundReceived. frame_cases. Qed.

Lemma tot_SetRoundReceived (r : Z) (round : RoundReceived) (s : InmemStore) :
  totConsensusEvents (SetRoundReceived r round s).2 = totConsensusEvents s.
Proof. unfold SetRoundReceived. frame_cases. Qed.

Lemma tot_RoundClothos (r : Z) (s : InmemStore) :
  totConsensusEvents (RoundClothos r s).2 = totConsensusEvents s.
Proof.
  unfold RoundClothos. pose proof (tot_GetRoundCreated r s) as Hg.
  destruct (GetRoundCreated r s) as [[round err] s1]. simpl in Hg. frame_cases.
Qed.

Lemma tot_RoundEvents (r : Z) (s : InmemStore) :
  totConsensusEvents (RoundEvents r s).2 = totConsensusEvents s.
Proof.
  unfold RoundEvents. pose proof (tot_GetRoundCreated r s) as Hg.
  destruct (GetRoundCreated r s) as [[round err] s1]. simpl in Hg. frame_cases.
Qed.

Lemma tot_GetBlock (index : Z) (s : InmemStore) :
  totConsensusEvents (GetBlock index s).2 = totConsensusEvents s.
Proof. unfold GetBlock. frame_cases. Qed.

Lemma tot_SetBlock (block : Block) (s : InmemStore) :
  totConsensusEvents (SetBlock block s).2 = totConsensusEvents s.
Proof.
  unfold SetBlock. pose proof (tot_GetBlock (Block_Index block) s) as Hg.
  destruct (GetBlock (Block_Index block) s) as [[b err] s1]. simpl in Hg. frame_cases.
Qed.

Lemma tot_GetFrame (index : Z) (s : InmemStore) :
  totConsensusEvents (GetFrame index s).2 = totConsensusEvents s.
Proof. unfold GetFrame. frame_cases. Qed.

Lemma tot_SetFrame (frame : Frame) (s : InmemStore) :
  totConsensusEvents (SetFrame frame s).2 = totConsensusEvents s.
Proof.
  unfold SetFrame. pose proof (tot_GetFrame (Frame_Round frame) s) as Hg.
  destruct (GetFrame (Frame_Round frame) s) as [[f err] s1]. simpl in Hg. frame_cases.
Qed.

Lemma tot_onNewPeer (ps : peers.Peers) (peer : peers.Peer) (s s' : InmemStore) :
  onNewPeer ps peer s = Returns s' → totConsensusEvents s' = totConsensusEvents s.
Proof. by intros (roots & _ & ->)%onNewPeer_inv. Qed.

Lemma tot_AddConsensusEvent (event : Event) (s : InmemStore) :
  totConsensusEvents (AddConsensusEvent event s).2 = wrap64 (totConsensusEvents s + 1).
Proof. unfold AddConsensusEvent. frame_cases. Qed.

(** *** The roots under every operation *)

Lemma rbp_RootsBySelfParent (s : InmemStore) :
  rootsByParticipant (RootsBySelfParent s).2 = rootsByParticipant s.
Proof. unfold RootsBySelfParent. frame_cases. Qed.

Lemma rbp_GetEventBlock (hash : EventHash) (s : InmemStore) :
  rootsByParticipant (GetEventBlock hash s).2 = rootsByParticipant s.
Proof. unfold GetEventBlock. frame_cases. Qed.

Lemma rbp_SetEvent (event : Event) (s : InmemStore) :
  rootsByParticipant (SetEvent event s).2 = rootsByParticipant s.
Proof.
  unfold SetEvent, addParticpantEvent.
  pose proof (rbp_GetEventBlock (Event_Hash event) s) as Hg.
  destruct (GetEventBlock (Event_Hash event) s) as [[ev err] s1]. simpl in Hg.
  destruct (bool_decide (err ≠ None) && negb (cm.Is err cm.KeyNotFound)); [done|].
  destruct (cm.Is err cm.KeyNotFound); [|done].
  destruct (ParticipantEventsCache.Set_ _ _ _ _) as [[e'|] c]; done.
Qed.

Lemma rbp_GetRoundCreated (r : Z) (s : InmemStore) :
  rootsByParticipant (GetRoundCreated r s).2 = rootsByParticipant s.
Proof. unfold GetRoundCreated. frame_cases. Qed.

Lemma rbp_SetRoundCreated (r : Z) (round : RoundCreated) (s : InmemStore) :
  rootsByParticipant (SetRoundCreated r round s).2 = rootsByParticipant s.
Proof. unfold SetRoundCreated. frame_cases. Qed.

Lemma rbp_GetRoundReceived (r : Z) (s : InmemStore) :
  rootsByParticipant (GetRoundReceived r s).2 = rootsByParticipant s.
Proof. unfold GetRoundReceived. frame_cases. Qed.

Lemma rbp_SetRoundReceived (r : Z) (round : RoundReceived) (s : InmemStore) :
  rootsByParticipant (SetRoundReceived r round s).2 = rootsByParticipant s.
Proof. unfold SetRoundReceived. frame_cases. Qed.

Lemma rbp_RoundClothos (r : Z) (s : InmemStore) :
  rootsByParticipant (RoundClothos r s).2 = rootsByParticipant s.
Proof.
  unfold RoundClothos. pose proof (rbp_GetRoundCreated r s) as Hg.
  destruct (GetRoundCreated r s) as [[round err] s1]. simpl in Hg. frame_cases.
Qed.

Lemma rbp_RoundEvents (r : Z) (s : InmemStore) :
  rootsByParticipant (RoundEvents r s).2 = rootsByParticipant s.
Proof.
  unfold RoundEvents. pose proof (rbp_GetRoundCreated r s) as Hg.
  destruct (GetRoundCreated r s) as [[round err] s1]. simpl in Hg. frame_cases.
Qed.

Lemma rbp_GetBlock (index : Z) (s : InmemStore) :
  rootsByParticipant (GetBlock index s).2 = rootsByParticipant s.
Proof. unfold GetBlock. frame_cases. Qed.

Lemma rbp_SetBlock (block : Block) (s : InmemStore) :
  rootsByParticipant (SetBlock block s).2 = rootsByParticipant s.
Proof.
  unfold SetBlock. pose proof (rbp_GetBlock (Block_Index block) s) as Hg.
  destruct (GetBlock (Block_Index block) s) as [[b err] s1]. simpl in Hg. frame_cases.
Qed.

Lemma rbp_GetFrame (index : Z) (s : InmemStore) :
  rootsByParticipant (GetFrame index s).2 = rootsByParticipant s.
Proof. unfold GetFrame. frame_cases. Qed.

Lemma rbp_SetFrame (frame : Frame) (s : InmemStore) :
  rootsByParticipant (SetFrame frame s).2 = rootsByParticipant s.
Proof.
  unfold SetFrame. pose proof (rbp_GetFrame (Frame_Round frame) s) as Hg.
  destruct (GetFrame (Frame_Round frame) s) as [[f err] s1]. simpl in Hg. frame_cases.
Qed.

Lemma rbp_AddConsensusEvent (event : Event) (s : InmemStore) :
  rootsByParticipant (AddConsensusEvent event s).2 = rootsByParticipant s.
Proof. unfold AddConsensusEvent. frame_cases. Qed.

(** Each operation but [Reset] returns, on a store whose roots are not the
    nil map, and leaves roots that are not the nil map. *)
Lemma exec_returns (op : Op) (s : InmemStore) :
  is_Reset op = false → is_NilMap (rootsByParticipant s) = false →
  ∃ s', exec op s = Returns s' ∧ is_NilMap (rootsByParticipant s') = false.
Proof.
  intros Hop Hmade.
  destruct op; cbn [exec is_Reset] in *; try discriminate;
    try (eexists; split; [reflexivity|];
         first [ done
               | by rewrite rbp_RootsBySelfParent | by rewrite rbp_GetEventBlock
               | by rewrite rbp_SetEvent | by rewrite rbp_AddConsensusEvent
               | by rewrite rbp_GetRoundCreated | by rewrite rbp_SetRoundCreated
               | by rewrite rbp_GetRoundReceived | by rewrite rbp_SetRoundReceived
               | by rewrite rbp_RoundClothos | by rewrite rbp_RoundEvents
               | by rewrite rbp_GetBlock | by rewrite rbp_SetBlock
               | by rewrite rbp_GetFrame | by rewrite rbp_SetFrame ]).
  destruct (rootsByParticipant s) as [|roots] eqn:Hr; [done|].
  rewrite (onNewPeer_Made _ _ _ _ Hr). eauto.
Qed.

Lemma exec_totConsensusEvents (op : Op) (s s' : InmemStore) :
  is_Reset op = false → exec op s = Returns s' →
  totConsensusEvents s' =
    if is_AddConsensusEvent op then wrap64 (totConsensusEvents s + 1)
    else totConsensusEvents s.
Proof.
  destruct op; cbn [exec is_Reset is_AddConsensusEvent]; intros Hop Hex;
    try discriminate; try (by apply (tot_onNewPeer _ _ _ _ Hex));
    injection Hex as <-;
    first [ reflexivity
          | apply tot_RootsBySelfParent | apply tot_GetEventBlock
          | apply tot_SetEvent | apply tot_AddConsensusEvent
          | apply tot_GetRoundCreated | apply tot_SetRoundCreated
          | apply tot_GetRoundReceived | apply tot_SetRoundReceived
          | apply tot_RoundClothos | apply tot_RoundEvents
          | apply tot_GetBlock | apply tot_SetBlock
          | apply tot_GetFrame | apply tot_SetFrame ].
Qed.

Lemma run_app (ops1 ops2 : list Op) (s : InmemStore) :
  run (ops1 ++ ops2) s =
    match run ops1 s with
    | Returns s1 => run ops2 s1
    | Exits code => Exits code
    | Panics => Panics
    end.
Proof.
  revert s. induction ops1 as [|op ops1 IH]; intros s; simpl; [done|].
  destruct (exec op s); [apply IH | done..].
Qed.

(** Without overflow, the count after a run is the count before it plus the
    number of [AddConsensusEvent] in the run. *)
Lemma run_totConsensusEvents (ops : list Op) (s s' : InmemStore) :
  Forall (λ op, is_Reset op = false) ops →
  run ops s = Returns s' →
  min_int64 <= totConsensusEvents s →
  totConsensusEvents s + Z.of_nat (length ops) <= max_int64 →
  totConsensusEvents s' =
    totConsensusEvents s + Z.of_nat (length (filter (λ op, is_AddConsensusEvent op = true) ops)).
Proof.
  intros Hops. revert s. induction Hops as [|op ops Hop _ IH]; intros s Hrun Hmin Hmax.
  - simpl in *. injection Hrun as <-. lia.
  - simpl in Hrun. destruct (exec op s) as [s1| |] eqn:Hex; [|discriminate..].
    pose proof (exec_totConsensusEvents op s s1 Hop Hex) as H1.
    simpl length in Hmax.
    rewrite filter_cons. destruct (is_AddConsensusEvent op) eqn:Hadd.
    + rewrite wrap64_succ in H1 by lia.
      rewrite decide_True by done. simpl length.
      rewrite (IH s1 Hrun) by lia. lia.
    + rewrite decide_False by done.
      rewrite (IH s1 Hrun) by lia. lia.
Qed.

(** *** The rolling index under every operation *)


Lemma cc_GetEventBlock (hash : EventHash) (s : InmemStore) :
  consensusCache (GetEventBlock hash s).2 = consensusCache s.
Proof. unfold GetEventBlock. frame_cases. Qed.

Lemma cc_SetEvent (event : Event) (s : InmemStore) :
  consensusCache (SetEvent event s).2 = consensusCache s.
Proof.
  unfold SetEvent, addParticpantEvent.
  pose proof (cc_GetEventBlock (Event_Hash event) s) as Hg.
  destruct (GetEventBlock (Event_Hash event) s) as [[ev err] s1]. simpl in Hg.
  destruct (bool_decide (err ≠ None) && negb (cm.Is err cm.KeyNotFound)); [done|].
  destruct (cm.Is err cm.KeyNotFound); [|done].
  destruct (ParticipantEventsCache.Set_ _ _ _ _) as [[e'|] c]; done.
Qed.















(** C3: in a sequence of store operations with no [Reset], of two
    observations of [ConsensusEventsCount()] the later one is at least the
    earlier one (the count staying within [int64]); an operation other than
    [AddConsensusEvent] leaves the count as it is, and [AddConsensusEvent]
    adds exactly 1 to it. *)
Theorem ConsensusEventsCount_monotone
    (ops1 ops2 : list Op) (s s1 s2 : InmemStore) :
  Forall (λ op, is_Reset op = false) (ops1 ++ ops2) →
  run ops1 s = Returns s1 →
  run (ops1 ++ ops2) s = Returns s2 →
  min_int64 <= ConsensusEventsCount s1 →
  ConsensusEventsCount s1 + Z.of_nat (length ops2) <= max_int64 →
  ConsensusEventsCount s1 <= ConsensusEventsCount s2
  ∧ (∀ op t t', is_Reset op = false → exec op t = Returns t' →
       min_int64 <= ConsensusEventsCount t < max_int64 →
       ConsensusEventsCount t' =
         ConsensusEventsCount t + (if is_AddConsensusEvent op then 1 else 0)).
Proof.
  unfold ConsensusEventsCount. intros Hops Hr1 Hr12 Hmin Hmax. split.
  - rewrite run_app, Hr1 in Hr12. apply Forall_app in Hops as [_ Hops2].
    rewrite (run_totConsensusEvents ops2 s1 s2 Hops2 Hr12 Hmin Hmax). lia.
  - intros op t t' Hop Hex Hrange.
    rewrite (exec_totConsensusEvents op t t' Hop Hex).
    destruct (is_AddConsensusEvent op); [rewrite wrap64_succ by done; lia | lia].
Qed.

(** ** The reverse root index *)

Lemma build_rootsBySelfParent_list_to_map (l : list (string * Root)) :
  build_rootsBySelfParent l =
    list_to_map (reverse ((λ pr, (root_hash pr.2, pr.2)) <$> l)).
Proof.
  unfold build_rootsBySelfParent.
  induction l as [|[p root] l IH] using rev_ind; [done|].
  rewrite foldl_app, fmap_app, reverse_app. simpl. rewrite IH. done.
Qed.

Lemma map_range_elem_of `{Countable K} {V : Type} (m : gmap K V) (k : K) (v : V) :
  (k, v) ∈ map_range m ↔ m !! k = Some v.
Proof. rewrite (map_range_perm K V m). apply elem_of_map_to_list. Qed.

Lemma map_range_NoDup `{Countable K} {V : Type} (m : gmap K V) :
  NoDup (map_range m).
Proof. rewrite (map_range_perm K V m). apply NoDup_map_to_list. Qed.

Lemma map_range_length `{Countable K} {V : Type} (m : gmap K V) :
  length (map_range m) = size m.
Proof. rewrite (map_range_perm K V m). apply length_map_to_list. Qed.

(** Every entry of the index is a root of the registry under its own hash,
    and every root of the registry has its hash in the index. *)
Lemma build_rootsBySelfParent_lookup (roots : gmap string Root) (h : EventHash) (root : Root) :
  build_rootsBySelfParent (map_range roots) !! h = Some root →
  root_hash root = h ∧ ∃ p, roots !! p = Some root.
Proof.
  rewrite build_rootsBySelfParent_list_to_map.
  intros Hin%elem_of_list_to_map_2. rewrite elem_of_reverse in Hin.
  apply list_elem_of_fmap in Hin as ([p r] & [= -> ->] & Hin).
  split; [done|]. exists p. by apply map_range_elem_of.
Qed.

Lemma build_rootsBySelfParent_is_Some (roots : gmap string Root) (p : string) (root : Root) :
  roots !! p = Some root →
  is_Some (build_rootsBySelfParent (map_range roots) !! root_hash root).
Proof.
  intros Hp%map_range_elem_of. rewrite build_rootsBySelfParent_list_to_map.
  apply not_eq_None_Some. rewrite <- not_elem_of_list_to_map. intros Hnot. apply Hnot.
  rewrite fmap_reverse, elem_of_reverse, <- list_fmap_compose.
  apply list_elem_of_fmap. exists (p, root). done.
Qed.

Lemma build_rootsBySelfParent_distinct (roots : gmap string Root) :
  distinct_root_hashes roots →
  (∀ p root, roots !! p = Some root →
     build_rootsBySelfParent (map_range roots) !! root_hash root = Some root)
  ∧ size (build_rootsBySelfParent (map_range roots)) = size roots.
Proof.
  intros Hdist. rewrite build_rootsBySelfParent_list_to_map.
  assert (NoDup (reverse ((λ pr : string * Root, (root_hash pr.2, pr.2)) <$> map_range roots)).*1)
    as Hnd.
  { rewrite fmap_reverse, <- list_fmap_compose, reverse_Permutation.
    apply NoDup_fmap_2_strong; [|apply map_range_NoDup].
    intros [p1 r1] [p2 r2] H1%map_range_elem_of H2%map_range_elem_of Heq.
    simpl in Heq. pose proof (Hdist p1 p2 r1 r2 H1 H2 Heq) as ->.
    congruence. }
  split.
  - intros p root Hp%map_range_elem_of.
    apply elem_of_list_to_map_1; [done|]. rewrite elem_of_reverse.
    apply list_elem_of_fmap. exists (p, root). done.
  - rewrite <- (map_range_length roots).
    rewrite <- (length_fmap (λ pr : string * Root, (root_hash pr.2, pr.2)) (map_range roots)).
    rewrite <- (length_reverse (_ <$> map_range roots)).
    rewrite <- (length_map_to_list (list_to_map _)).
    apply Permutation_length. apply map_to_list_to_map. done.
Qed.

(** C2 (amended): after [Reset(roots)] returns, [LastRound()] and
    [LastBlockIndex()] are −1, [ConsensusEvents()] is empty, and
    [RootsBySelfParent()] returns, with no error, the map whose keys are the
    self-parent hashes of the roots in [roots], each with a root of [roots]
    that has this hash; it has exactly one entry per participant when the
    roots of distinct participants have distinct self-parent hashes. *)
Theorem Reset_resets_rounds_blocks_roots
    (roots : GoMap Root) (s s' : InmemStore) (err : cm.error) :
  Reset roots s = Returns (err, s') →
  LastRound s' = -1
  ∧ LastBlockIndex s' = -1
  ∧ ConsensusEvents s' = []
  ∧ ∃ m, RootsBySelfParent s' = ((m, None), s')
     ∧ (∀ p root, roots !! p = Some root → is_Some (m !! root_hash root))
     ∧ (∀ h root, m !! h = Some root →
          root_hash root = h ∧ ∃ p, roots !! p = Some root)
     ∧ (distinct_root_hashes roots →
          (∀ p root, roots !! p = Some root → m !! root_hash root = Some root)
          ∧ size m = size roots).
Proof.
  intros (_ & _ & ->)%Reset_inv.
  split; [done|]. split; [done|]. split; [done|].
  exists (build_rootsBySelfParent (map_range roots)).
  split; [done|]. split; [|split].
  - apply build_rootsBySelfParent_is_Some.
  - apply build_rootsBySelfParent_lookup.
  - apply build_rootsBySelfParent_distinct.
Qed.

(** ** The participant-events index and the root fallbacks *)

Lemma GetLast_no_events (p : string) (c : ParticipantEventsCache.t EventHash) :
  ParticipantEventsCache.no_events p c →
  ParticipantEventsCache.GetLast EventHash_zero p c =
    (EventHash_zero, Some (cm.NewStoreErr "ParticipantEvents" cm.Empty p)).
Proof.
  unfold ParticipantEventsCache.no_events, ParticipantEventsCache.GetLast.
  intros ->. reflexivity.
Qed.

(** Outside the window [GetItem] gives the zero hash and an error. *)
Lemma GetItem_outside (p : string) (i : Z) (c : ParticipantEventsCache.t EventHash) :
  ¬ ParticipantEventsCache.in_window p i c →
  ∃ e, ParticipantEventsCache.GetItem EventHash_zero p i c = (EventHash_zero, Some e)
       ∧ (cm.errType e = cm.TooLow ∨ cm.errType e = cm.KeyNotFound).
Proof.
  unfold ParticipantEventsCache.in_window, ParticipantEventsCache.GetItem.
  intros Hout. case_decide as Hlow; [eauto|].
  destruct (_ !! _) as [h|] eqn:Hlook; [|eauto].
  exfalso. apply Hout. apply lookup_lt_Some in Hlook.
  unfold ParticipantEventsCache.lowIndex in *. unfold lt in *. lia.
Qed.

Lemma GetItem_inside (p : string) (i : Z) (c : ParticipantEventsCache.t EventHash) :
  ParticipantEventsCache.in_window p i c →
  ∃ h, ParticipantEventsCache.GetItem EventHash_zero p i c = (h, None).
Proof.
  unfold ParticipantEventsCache.in_window, ParticipantEventsCache.GetItem.
  intros Hrange. rewrite decide_False by lia.
  destruct (lookup_lt_is_Some_2 (ParticipantEventsCache.items (ParticipantEventsCache.window p c))
              (Z.to_nat (i - ParticipantEventsCache.lowIndex (ParticipantEventsCache.window p c))))
    as [h ->]; [|eauto].
  unfold ParticipantEventsCache.lowIndex in *. unfold lt. lia.
Qed.

Lemma Known_list_to_map (order : list (string * peers.Peer))
    (c : ParticipantEventsCache.t EventHash) :
  ParticipantEventsCache.Known order c =
    list_to_map (reverse ((λ e, (peers.ID e.2,
        ParticipantEventsCache.lastIndex (ParticipantEventsCache.window e.1 c))) <$> order)).
Proof.
  unfold ParticipantEventsCache.Known.
  induction order as [|[pk peer] order IH] using rev_ind; [done|].
  rewrite foldl_app, fmap_app, reverse_app. simpl. rewrite IH. done.
Qed.

Lemma Known_lookup (ps : peers.Peers) (c : ParticipantEventsCache.t EventHash)
    (p : string) (peer : peers.Peer) :
  peers.ids_unique ps → peers.ByPubKey ps !! p = Some peer →
  ParticipantEventsCache.Known (map_range (peers.ByPubKey ps)) c !! peers.ID peer
    = Some (ParticipantEventsCache.lastIndex (ParticipantEventsCache.window p c)).
Proof.
  intros Huniq Hp. rewrite Known_list_to_map.
  apply elem_of_list_to_map_1.
  - rewrite fmap_reverse, <- list_fmap_compose, reverse_Permutation.
    apply NoDup_fmap_2_strong; [|apply map_range_NoDup].
    intros [p1 x1] [p2 x2] H1%map_range_elem_of H2%map_range_elem_of Heq.
    simpl in Heq. pose proof (Huniq p1 p2 x1 x2 H1 H2 Heq) as ->. congruence.
  - rewrite elem_of_reverse. apply list_elem_of_fmap. exists (p, peer).
    split; [done|]. by apply map_range_elem_of.
Qed.

Lemma known_step_other (roots : gmap string Root) (l : list (string * peers.Peer))
    (known : gmap Z Z) (id : Z) :
  (∀ q qp, (q, qp) ∈ l → peers.ID qp ≠ id) →
  foldl (known_step roots) known l !! id = known !! id.
Proof.
  revert known. induction l as [|[q qp] l IH]; intros known Hl; simpl; [done|].
  rewrite IH by (intros q' qp' Hin; apply (Hl q' qp'); by right).
  assert (peers.ID qp ≠ id) as Hne by (apply (Hl q qp); left).
  case_decide; [|done]. destruct (roots !! q); [|done].
  by rewrite lookup_insert_ne.
Qed.

Lemma known_step_root (roots : gmap string Root) (l : list (string * peers.Peer))
    (known : gmap Z Z) (p : string) (peer : peers.Peer) (root : Root) :
  NoDup l → (p, peer) ∈ l →
  (∀ q qp, (q, qp) ∈ l → peers.ID qp = peers.ID peer → (q, qp) = (p, peer)) →
  known !! peers.ID peer = Some (-1) → roots !! p = Some root →
  foldl (known_step roots) known l !! peers.ID peer = Some (Index (Root_SelfParent root)).
Proof.
  intros Hnd Hin Huniq Hknown Hroot. revert known Hknown.
  induction Hnd as [|[q qp] l Hnotin Hnd IH]; intros known Hknown.
  - by apply elem_of_nil in Hin.
  - simpl. destruct (decide (peers.ID qp = peers.ID peer)) as [Hid|Hid].
    + assert ((q, qp) = (p, peer)) as [= -> ->] by (apply Huniq; [by left | done]).
      rewrite Hknown. simpl. rewrite Hroot.
      rewrite known_step_other; [apply lookup_insert_eq|].
      intros q' qp' Hin' Hid'.
      assert ((q', qp') = (p, peer)) as [= -> ->]
        by (apply Huniq; [by right | done]).
      done.
    + apply elem_of_cons in Hin as [[= <- <-]|Hin]; [done|].
      apply IH; [done| |].
      * intros q' qp' Hin' Hid'. apply Huniq; [by right | done].
      * case_decide; [|done]. destruct (roots !! q); [|done].
        by rewrite lookup_insert_ne.
Qed.

(** C6: for a participant p of which no event was put into the store:
    when p has a root, [LastEventFrom(p)] returns the root's self-parent
    hash with [isRoot = true] and no error, and [KnownEvents()] has at p's
    id the root's self-parent index in place of the sentinel −1; when p has
    no root, [LastEventFrom(p)] returns a no-root error. *)
Theorem LastEventFrom_KnownEvents_root_fallback (s : InmemStore) (p : string) :
  ParticipantEventsCache.no_events p (participantEventsCache s) →
  (∀ root, rootsByParticipant s !! p = Some root →
     LastEventFrom p s = (root_hash root, true, None)
     ∧ (∀ peer, peers.ByPubKey (participants s) !! p = Some peer →
          peers.ids_unique (participants s) →
          ParticipantEventsCache.Known (map_range (peers.ByPubKey (participants s)))
            (participantEventsCache s) !! peers.ID peer = Some (-1)
          ∧ KnownEvents s !! peers.ID peer = Some (Index (Root_SelfParent root))))
  ∧ (rootsByParticipant s !! p = None →
     ∃ last, LastEventFrom p s =
       (last, false, Some (cm.NewStoreErr "InmemStore.Roots" cm.NoRoot p))).
Proof.
  intros Hnone. split.
  - intros root Hroot. split.
    + unfold LastEventFrom. rewrite (GetLast_no_events p _ Hnone). simpl.
      rewrite Hroot. done.
    + intros peer Hpeer Huniq.
      assert (ParticipantEventsCache.Known (map_range (peers.ByPubKey (participants s)))
                (participantEventsCache s) !! peers.ID peer = Some (-1)) as Hknown.
      { rewrite (Known_lookup _ _ p peer Huniq Hpeer).
        unfold ParticipantEventsCache.no_events in Hnone. rewrite Hnone. done. }
      split; [done|]. unfold KnownEvents.
      apply (known_step_root _ _ _ p peer root);
        [apply map_range_NoDup | by apply map_range_elem_of | | done | done].
      intros q qp Hq%map_range_elem_of Hid.
      pose proof (Huniq q p qp peer Hq Hpeer Hid) as ->. congruence.
  - intros Hroot. unfold LastEventFrom. rewrite (GetLast_no_events p _ Hnone). simpl.
    rewrite Hroot. eauto.
Qed.

(** *** The newly constructed store *)

Lemma NewInmemStore_fields (ps : peers.Peers) (n : Z) (s : InmemStore) :
  NewInmemStore ps n = Returns s →
  0 < n
  ∧ cacheSize s = n ∧ participants s = ps
  ∧ eventCache s = lru.mkCache n []
  ∧ roundCreatedCache s = lru.mkCache n []
  ∧ roundReceivedCache s = lru.mkCache n []
  ∧ blockCache s = lru.mkCache n []
  ∧ frameCache s = lru.mkCache n []
  ∧ consensusCache s = RollingIndex.NewRollingIndex "ConsensusCache" n
  ∧ totConsensusEvents s = 0
  ∧ participantEventsCache s = ParticipantEventsCache.NewParticipantEventsCache n ps
  ∧ rootsByParticipant s = Made ((λ pid, NewBaseRoot (peers.ID pid)) <$> peers.ByPubKey ps)
  ∧ rootsBySelfParent s = None
  ∧ lastRound s = -1
  ∧ lastConsensusEvents s = ∅
  ∧ lastBlock s = -1.
Proof.
  intros (Hpos & ->)%NewInmemStore_inv. split; [done|].
  pose proof (setPeers_fields 0 ps
      (mkInmemStore n ps (lru.mkCache n []) (lru.mkCache n [])
           (lru.mkCache n []) (lru.mkCache n []) (lru.mkCache n [])
           (RollingIndex.NewRollingIndex "ConsensusCache" n) 0 ∅ ∅
           (ParticipantEventsCache.NewParticipantEventsCache n ps)
           (Made ((λ pid, NewBaseRoot (peers.ID pid)) <$> peers.ByPubKey ps))
           None (-1) ∅ (-1))) as Hf.
  simpl in Hf. exact Hf.
Qed.



Lemma NewParticipantEventsCache_window (n : Z) (ps : peers.Peers) (p : string) :
  ParticipantEventsCache.window p
    (ParticipantEventsCache.NewParticipantEventsCache (H := EventHash) n ps)
  = ParticipantEventsCache.emptyWindow.
Proof.
  unfold ParticipantEventsCache.window, ParticipantEventsCache.NewParticipantEventsCache.
  simpl. rewrite lookup_fmap. destruct (peers.ByPubKey ps !! p); done.
Qed.

(** No participant has events in a newly constructed store. *)
Lemma NewInmemStore_no_events (ps : peers.Peers) (n : Z) (s : InmemStore) (p : string) :
  NewInmemStore ps n = Returns s →
  ParticipantEventsCache.no_events p (participantEventsCache s).
Proof.
  intros Hnew. apply NewInmemStore_fields in Hnew.
  destruct Hnew as (_&_&_&_&_&_&_&_&_&_&->&_).
  apply NewParticipantEventsCache_window.
Qed.

(** C7: for an index i that the participant-events window of p does not
    retain, [ParticipantEvent(p, i)] falls back to p's root: with a root, it
    returns the root's self-parent hash and no error when i is the root's
    self-parent index, and the error of the index lookup otherwise; without
    a root it returns a no-root error.  On a newly constructed store
    [ParticipantEvent(p, −1)] is the self-parent hash of p's base root. *)
Theorem ParticipantEvent_root_fallback (s : InmemStore) (p : string) (i : Z) :
  ¬ ParticipantEventsCache.in_window p i (participantEventsCache s) →
  (∀ root, rootsByParticipant s !! p = Some root →
     (i = Index (Root_SelfParent root) →
        ParticipantEvent p i s = (root_hash root, None))
     ∧ (i ≠ Index (Root_SelfParent root) →
        ∃ e, ParticipantEvent p i s = (EventHash_zero, Some e)
             ∧ (cm.errType e = cm.TooLow ∨ cm.errType e = cm.KeyNotFound)))
  ∧ (rootsByParticipant s !! p = None →
     ParticipantEvent p i s =
       (EventHash_zero, Some (cm.NewStoreErr "InmemStore.Roots" cm.NoRoot p)))
  ∧ (∀ ps n peer, NewInmemStore ps n = Returns s →
       peers.ByPubKey ps !! p = Some peer → i = -1 →
       ParticipantEvent p i s = (root_hash (NewBaseRoot (peers.ID peer)), None)).
Proof.
  intros Hout.
  destruct (GetItem_outside p i _ Hout) as (e & Hget & Hkind).
  assert (∀ root, rootsByParticipant s !! p = Some root →
            i = Index (Root_SelfParent root) →
            ParticipantEvent p i s = (root_hash root, None)) as Hroot.
  { intros root Hr Hi. unfold ParticipantEvent. rewrite Hget, Hr.
    rewrite decide_True by done. done. }
  split; [|split].
  - intros root Hr. split; [by apply Hroot|].
    intros Hi. exists e. split; [|done].
    unfold ParticipantEvent. rewrite Hget, Hr. rewrite decide_False by done. done.
  - intros Hr. unfold ParticipantEvent. rewrite Hget, Hr. done.
  - intros ps n peer Hnew Hpeer ->.
    apply NewInmemStore_fields in Hnew.
    destruct Hnew as (_&_&_&_&_&_&_&_&_&_&_&Hroots&_).
    apply Hroot.
    + rewrite Hroots, lookup_Made, lookup_fmap, Hpeer. done.
    + by rewrite NewBaseRoot_Index.
Qed.

(** Within the window [ParticipantEvent] is the index lookup. *)
Lemma ParticipantEvent_in_window (s : InmemStore) (p : string) (i : Z) :
  ParticipantEventsCache.in_window p i (participantEventsCache s) →
  ParticipantEvent p i s =
    ParticipantEventsCache.GetItem EventHash_zero p i (participantEventsCache s)
  ∧ (ParticipantEvent p i s).2 = None.
Proof.
  intros (h & Hget)%GetItem_inside. unfold ParticipantEvent. rewrite Hget. done.
Qed.

(** ** Inserting an event twice *)

(** After a [SetEvent] without error the event is in the event cache. *)
Lemma SetEvent_cached (s s1 : InmemStore) (e : Event) :
  0 < lru.size (eventCache s) →
  SetEvent e s = (None, s1) →
  lru.find (Event_Hash e) (lru.entries (eventCache s1)) = Some e.
Proof.
  intros Hsize. unfold SetEvent, GetEventBlock, addParticpantEvent.
  pose proof (lru_size_Get (Event_Hash e) (eventCache s)) as Hsz.
  destruct (lru.Get (Event_Hash e) (eventCache s)) as [res c]. simpl in Hsz.
  assert (0 < lru.size c) as Hc by lia.
  destruct res as [ev|]; simpl.
  - intros [= <-]. simpl. by apply lru_find_Add.
  - destruct (ParticipantEventsCache.Set_ _ _ _ _) as [[err|] c']; simpl; [done|].
    intros [= <-]. simpl. by apply lru_find_Add.
Qed.

(** On a store that holds the event, [SetEvent] only writes the event
    cache. *)
Lemma SetEvent_present (s : InmemStore) (e : Event) :
  is_Some (lru.find (Event_Hash e) (lru.entries (eventCache s))) →
  SetEvent e s =
    (None, set_eventCache
             (lru.Add (Event_Hash e) e (lru.Get (Event_Hash e) (eventCache s)).2) s).
Proof.
  intros [ev Hfind]. unfold SetEvent, GetEventBlock, lru.Get. rewrite Hfind. simpl.
  done.
Qed.

(** The first insertion into a newly constructed store. *)
Lemma SetEvent_fresh (ps : peers.Peers) (n : Z) (s s1 : InmemStore) (e : Event) :
  NewInmemStore ps n = Returns s →
  SetEvent e s = (None, s1) →
  Event_Index e = 0
  ∧ ParticipantEventsCache.window (Event_GetCreator e) (participantEventsCache s1)
    = ParticipantEventsCache.mkWindow [Event_Hash e] 0.
Proof.
  intros Hnew. pose proof (NewInmemStore_no_events ps n s (Event_GetCreator e) Hnew) as Hno.
  apply NewInmemStore_fields in Hnew.
  destruct Hnew as (Hpos&_&_&Hcache&_&_&_&_&_&_&Hpec&_).
  unfold SetEvent, GetEventBlock, addParticpantEvent, lru.Get. rewrite Hcache. simpl.
  unfold ParticipantEventsCache.Set_.
  unfold ParticipantEventsCache.no_events in Hno. rewrite Hno. simpl.
  case_decide as Hidx; simpl; [|done].
  intros [= <-]. simpl. split; [lia|].
  unfold ParticipantEventsCache.window. simpl. rewrite lookup_insert_eq. simpl.
  rewrite Hpec. simpl. unfold RollingIndex.push. simpl.
  rewrite decide_False by lia. rewrite Hidx. done.
Qed.

(** C5: after a [SetEvent(e)] without error, a second [SetEvent(e)]
    returns no error and does not touch the participant-events index: it
    only adds e to the event cache again.  On a newly constructed store,
    after e was inserted twice, [ParticipantEvents(e.creator, −1)] is the one
    hash of e. *)
Theorem SetEvent_idempotent (s s1 : InmemStore) (e : Event) :
  0 < lru.size (eventCache s) →
  SetEvent e s = (None, s1) →
  SetEvent e s1 =
    (None, set_eventCache
             (lru.Add (Event_Hash e) e (lru.Get (Event_Hash e) (eventCache s1)).2) s1)
  ∧ participantEventsCache (SetEvent e s1).2 = participantEventsCache s1
  ∧ ParticipantEvents (Event_GetCreator e) (-1) (SetEvent e s1).2
    = ParticipantEvents (Event_GetCreator e) (-1) s1
  ∧ (∀ ps n, NewInmemStore ps n = Returns s →
       ParticipantEvents (Event_GetCreator e) (-1) (SetEvent e s1).2
       = ([Event_Hash e], None)).
Proof.
  intros Hsize Hfirst.
  pose proof (SetEvent_cached s s1 e Hsize Hfirst) as Hfound.
  pose proof (SetEvent_present s1 e (mk_is_Some _ _ Hfound)) as Hsecond.
  split; [done|]. rewrite Hsecond. simpl. split; [done|]. split; [done|].
  intros ps n Hnew.
  destruct (SetEvent_fresh ps n s s1 e Hnew Hfirst) as [_ Hwin].
  unfold ParticipantEvents, ParticipantEventsCache.Get. simpl. rewrite Hwin. done.
Qed.

End properties.

(** * The scenarios on the concrete instance *)

Lemma fresh_is_new : NewInmemStore Demo.one_peer 2 = Returns Demo.fresh.
Proof. reflexivity. Qed.

(** C1, as stated, fails on the store in use: one consensus event was
    added, and the count is still 1, not 0, after [Reset]. *)
Lemma Reset_does_not_rewind_ConsensusEventsCount :
  ConsensusEventsCount Demo.used = 1
  ∧ ∃ s', Reset Demo.roots1 Demo.used = Returns (None, s')
          ∧ ConsensusEventsCount s' = 1
          ∧ ConsensusEventsCount s' ≠ 0.
Proof.
  split; [reflexivity|].
  exists (after_Reset Demo.roots1 Demo.used).
  split; [apply Reset_returns; reflexivity|].
  split; [reflexivity | discriminate].
Qed.

Lemma Reset_keeps_ConsensusEventsCount_witness :
  Reset Demo.roots1 Demo.used = Returns (None, after_Reset Demo.roots1 Demo.used)
  ∧ (ConsensusEventsCount (after_Reset Demo.roots1 Demo.used)
       = ConsensusEventsCount Demo.used
     ∧ ConsensusEvents (after_Reset Demo.roots1 Demo.used) = []
     ∧ RollingIndex.total (consensusCache (after_Reset Demo.roots1 Demo.used)) = 0).
Proof.
  split; [apply Reset_returns; reflexivity|].
  apply (Reset_keeps_ConsensusEventsCount Demo.roots1 Demo.used _ None).
  apply Reset_returns; reflexivity.
Defined.

(** C2, as stated, fails for two participants whose roots have the same
    self-parent hash: they get one entry of the reverse index between them. *)
Lemma Reset_RootsBySelfParent_shared_entry :
  size Demo.roots2 = 2%nat
  ∧ ∃ s' m, Reset Demo.roots2 Demo.fresh = Returns (None, s')
            ∧ RootsBySelfParent s' = ((m, None), s')
            ∧ size m = 1%nat.
Proof.
  split; [reflexivity|].
  exists (after_Reset Demo.roots2 Demo.fresh).
  exists (build_rootsBySelfParent (map_range Demo.roots2)).
  split; [apply Reset_returns; reflexivity|].
  split; [reflexivity|]. reflexivity.
Qed.

Lemma Reset_resets_rounds_blocks_roots_witness :
  Reset Demo.roots1 Demo.used = Returns (None, after_Reset Demo.roots1 Demo.used)
  ∧ (LastRound (after_Reset Demo.roots1 Demo.used) = -1
     ∧ LastBlockIndex (after_Reset Demo.roots1 Demo.used) = -1
     ∧ ConsensusEvents (after_Reset Demo.roots1 Demo.used) = []
     ∧ ∃ m, RootsBySelfParent (after_Reset Demo.roots1 Demo.used)
              = ((m, None), after_Reset Demo.roots1 Demo.used)
        ∧ (∀ p root, Demo.roots1 !! p = Some root → is_Some (m !! root_hash root))
        ∧ (∀ h root, m !! h = Some root →
             root_hash root = h ∧ ∃ p, Demo.roots1 !! p = Some root)
        ∧ (distinct_root_hashes Demo.roots1 →
             (∀ p root, Demo.roots1 !! p = Some root → m !! root_hash root = Some root)
             ∧ size m = size Demo.roots1)).
Proof.
  split; [apply Reset_returns; reflexivity|].
  apply (Reset_resets_rounds_blocks_roots Demo.roots1 Demo.used _ None).
  apply Reset_returns; reflexivity.
Defined.

Lemma Reset_keeps_blocks_frames_lastConsensusEvents_witness :
  Reset Demo.roots1 Demo.used = Returns (None, after_Reset Demo.roots1 Demo.used)
  ∧ (GetBlock 2 (after_Reset Demo.roots1 Demo.used)).1 = (Demo.block2, None)
  ∧ LastBlockIndex (after_Reset Demo.roots1 Demo.used) = -1
  ∧ LastConsensusEventFrom "P1" (after_Reset Demo.roots1 Demo.used)
    = (Event_Hash Demo.E1, false, None).
Proof.
  split; [apply Reset_returns; reflexivity|].
  destruct (Reset_keeps_blocks_frames_lastConsensusEvents Demo.roots1 Demo.used
              (after_Reset Demo.roots1 Demo.used) None)
    as (_ & _ & _ & Hlast & Hblock & _ & Hcons).
  - apply Reset_returns; reflexivity.
  - split; [|split; [exact Hlast|]].
    + apply (Hblock 2 Demo.block2). reflexivity.
    + apply (Hcons "P1" (Event_Hash Demo.E1)). reflexivity.
Defined.

Lemma ConsensusEventsCount_monotone_witness :
  ConsensusEventsCount (AddConsensusEvent Demo.E1 Demo.fresh).2 = 1
  ∧ ConsensusEventsCount
      (AddConsensusEvent Demo.E2
         (GetBlock 2 (AddConsensusEvent Demo.E1 Demo.fresh).2).2).2 = 2
  ∧ ConsensusEventsCount (AddConsensusEvent Demo.E1 Demo.fresh).2
    <= ConsensusEventsCount
         (AddConsensusEvent Demo.E2
            (GetBlock 2 (AddConsensusEvent Demo.E1 Demo.fresh).2).2).2.
Proof.
  split; [reflexivity|]. split; [reflexivity|].
  apply (ConsensusEventsCount_monotone
           [OpAddConsensusEvent Demo.E1]
           [OpGetBlock 2; OpAddConsensusEvent Demo.E2]
           Demo.fresh).
  - repeat constructor.
  - reflexivity.
  - reflexivity.
  - discriminate.
  - discriminate.
Defined.



Lemma SetEvent_idempotent_witness :
  0 < lru.size (eventCache Demo.fresh)
  ∧ SetEvent Demo.E1 Demo.fresh = (None, (SetEvent Demo.E1 Demo.fresh).2)
  ∧ (SetEvent Demo.E1 (SetEvent Demo.E1 Demo.fresh).2).1 = None
  ∧ ParticipantEvents "P1" (-1) (SetEvent Demo.E1 (SetEvent Demo.E1 Demo.fresh).2).2
    = ([Event_Hash Demo.E1], None).
Proof.
  split; [reflexivity|]. split; [reflexivity|].
  destruct (SetEvent_idempotent Demo.fresh (SetEvent Demo.E1 Demo.fresh).2 Demo.E1)
    as (Hsecond & _ & _ & Hfresh).
  - reflexivity.
  - reflexivity.
  - split; [rewrite Hsecond; reflexivity|].
    apply (Hfresh Demo.one_peer 2). apply fresh_is_new.
Defined.

Lemma LastEventFrom_KnownEvents_root_fallback_witness :
  ParticipantEventsCache.no_events "P1" (participantEventsCache Demo.fresh)
  ∧ LastEventFrom "P1" Demo.fresh = (root_hash (NewBaseRoot 1), true, None)
  ∧ KnownEvents Demo.fresh !! 1 = Some (-1)
  ∧ ∃ last, LastEventFrom "P2" Demo.fresh =
      (last, false, Some (cm.NewStoreErr "InmemStore.Roots" cm.NoRoot "P2")).
Proof.
  split; [reflexivity|].
  destruct (LastEventFrom_KnownEvents_root_fallback Demo.fresh "P1") as [Hroot _];
    [reflexivity|].
  destruct (Hroot (NewBaseRoot 1)) as [Hlast Hknown]; [reflexivity|].
  split; [exact Hlast|]. split.
  - destruct (Hknown Demo.P1) as [_ Hk]; [reflexivity| |exact Hk].
    intros pk1 pk2 p1 p2 H1 H2 _.
    change (({[ "P1" := Demo.P1 ]} : gmap string peers.Peer) !! pk1 = Some p1) in H1.
    change (({[ "P1" := Demo.P1 ]} : gmap string peers.Peer) !! pk2 = Some p2) in H2.
    apply lookup_singleton_Some in H1 as [<- _].
    apply lookup_singleton_Some in H2 as [<- _]. reflexivity.
  - destruct (LastEventFrom_KnownEvents_root_fallback Demo.fresh "P2") as [_ Hno];
      [reflexivity|].
    apply Hno. reflexivity.
Defined.

Lemma ParticipantEvent_root_fallback_witness :
  ¬ ParticipantEventsCache.in_window "P1" (-1) (participantEventsCache Demo.fresh)
  ∧ ParticipantEvent "P1" (-1) Demo.fresh = (root_hash (NewBaseRoot 1), None)
  ∧ (∃ e, ParticipantEvent "P1" 0 Demo.fresh = (EventHash_zero, Some e)
          ∧ (cm.errType e = cm.TooLow ∨ cm.errType e = cm.KeyNotFound))
  ∧ ParticipantEvent "P2" (-1) Demo.fresh
    = (EventHash_zero, Some (cm.NewStoreErr "InmemStore.Roots" cm.NoRoot "P2")).
Proof.
  assert (∀ p i,
            ¬ ParticipantEventsCache.in_window p i (participantEventsCache Demo.fresh))
    as Hout.
  { intros p i [Hlo Hhi].
    assert (ParticipantEventsCache.window p (participantEventsCache Demo.fresh)
            = ParticipantEventsCache.emptyWindow) as Hw.
    { apply (NewInmemStore_no_events Demo.one_peer 2). apply fresh_is_new. }
    rewrite Hw in Hlo, Hhi.
    unfold ParticipantEventsCache.lowIndex, ParticipantEventsCache.emptyWindow in Hlo.
    unfold ParticipantEventsCache.emptyWindow in Hhi. simpl in Hlo, Hhi. lia. }
  split; [apply Hout|].
  split; [|split].
  - destruct (ParticipantEvent_root_fallback Demo.fresh "P1" (-1)) as (_ & _ & Hnew);
      [apply Hout|].
    apply (Hnew Demo.one_peer 2 Demo.P1); [apply fresh_is_new | reflexivity | reflexivity].
  - destruct (ParticipantEvent_root_fallback Demo.fresh "P1" 0) as (Hroot & _);
      [apply Hout|].
    destruct (Hroot (NewBaseRoot 1)) as [_ Hne]; [reflexivity|].
    apply Hne. discriminate.
  - destruct (ParticipantEvent_root_fallback Demo.fresh "P2" (-1)) as (_ & Hno & _);
      [apply Hout|].
    apply Hno. reflexivity.
Defined.

Lemma LastRound_is_max_witness :
  LastRound Demo.fresh = -1
  ∧ LastRound
      (SetRoundReceived 3 NewRoundReceived
         (SetRoundCreated 5 NewRoundCreated Demo.fresh).2).2 = 5
  ∧ LastRound (SetRoundCreated 2 NewRoundCreated Demo.used).2 = 5.
Proof.
  destruct (LastRound_is_max Demo.fresh 5 3 NewRoundCreated NewRoundReceived)
    as (_ & _ & _ & Hnew).
  destruct (Hnew Demo.one_peer 2 Demo.fresh fresh_is_new) as [Hfresh Htwo].
  split; [exact Hfresh|]. split.
  - apply Htwo; [discriminate | reflexivity].
  - destruct (LastRound_is_max Demo.used 2 0 NewRoundCreated NewRoundReceived)
      as (-> & _).
    reflexivity.
Defined.

Lemma RoundClothos_RoundEvents_swallow_not_found_witness :
  lru.find 7 (lru.entries (roundCreatedCache Demo.used)) = None
  ∧ (cm.Is (GetRoundCreated 7 Demo.used).1.2 cm.KeyNotFound = true
     ∧ RoundClothos 7 Demo.used = ([], Demo.used)
     ∧ RoundEvents 7 Demo.used = (0, Demo.used)).
Proof.
  split; [reflexivity|].
  apply (RoundClothos_RoundEvents_swallow_not_found Demo.used 7).
  reflexivity.
Defined.

(** * Further properties of the store *)

(** ** The LRU cache: what lookups see *)

Section lru_more.
Context {K V : Type} `{EqDecision K}.

Lemma lru_find_remove_key_eq (k : K) (l : list (K * V)) :
  lru.find k (lru.remove_key k l) = None.
Proof.
  induction l as [|[k' v] l IH]; simpl; [done|].
  case_decide as Hk; [done|]. simpl. by rewrite decide_False.
Qed.

Lemma lru_find_remove_key_ne (k k' : K) (l : list (K * V)) :
  k' ≠ k → lru.find k' (lru.remove_key k l) = lru.find k' l.
Proof.
  intros Hne. induction l as [|[k0 v] l IH]; simpl; [done|].
  repeat case_decide; simplify_eq; simpl; repeat case_decide; simplify_eq; done.
Qed.

Lemma lru_length_remove_key (k : K) (l : list (K * V)) :
  (length (lru.remove_key k l) <= length l)%nat.
Proof.
  induction l as [|[k' v] l IH]; simpl; [done|]. case_decide; simpl; lia.
Qed.

Lemma lru_length_remove_key_found (k : K) (v : V) (l : list (K * V)) :
  lru.find k l = Some v → (length (lru.remove_key k l) < length l)%nat.
Proof.
  induction l as [|[k' v'] l IH]; simpl; [done|].
  case_decide.
  - intros _. pose proof (lru_length_remove_key k l). lia.
  - intros Hf. specialize (IH Hf). simpl. lia.
Qed.

Lemma lru_Get_result (k : K) (c : lru.Cache K V) :
  (lru.Get k c).1 = lru.find k (lru.entries c).
Proof. unfold lru.Get. destruct (lru.find k (lru.entries c)); done. Qed.

(** [Get] changes the order of the entries only. *)
Lemma lru_find_Get (k k' : K) (c : lru.Cache K V) :
  lru.find k' (lru.entries (lru.Get k c).2) = lru.find k' (lru.entries c).
Proof.
  unfold lru.Get. destruct (lru.find k (lru.entries c)) as [v|] eqn:Hf; simpl; [|done].
  case_decide as Hk.
  - by subst.
  - apply lru_find_remove_key_ne. congruence.
Qed.

Lemma lru_find_removelast (k : K) (x : V) (l : list (K * V)) :
  lru.find k (removelast l) = Some x → lru.find k l = Some x.
Proof.
  induction l as [|[k' v] l IH]; [done|].
  destruct l as [|kv l']; [done|].
  change (removelast ((k', v) :: kv :: l')) with ((k', v) :: removelast (kv :: l')).
  simpl lru.find at 1 2. case_decide; [done|]. apply IH.
Qed.

(** [Add] gives other keys no entry they did not have. *)
Lemma lru_find_Add_other (k k' : K) (v x : V) (c : lru.Cache K V) :
  k' ≠ k → lru.find k' (lru.entries (lru.Add k v c)) = Some x →
  lru.find k' (lru.entries c) = Some x.
Proof.
  intros Hne. unfold lru.Add.
  destruct (lru.find k (lru.entries c)) as [v0|]; cbn [lru.entries].
  - simpl. rewrite decide_False by congruence. by rewrite lru_find_remove_key_ne.
  - case_decide.
    + intros Hf%lru_find_removelast. simpl in Hf. by rewrite decide_False in Hf by congruence.
    + simpl. by rewrite decide_False by congruence.
Qed.

(** An [Add] over a key the cache holds evicts nothing. *)
Lemma lru_find_Add_present (k k' : K) (v : V) (c : lru.Cache K V) :
  is_Some (lru.find k (lru.entries c)) → k' ≠ k →
  lru.find k' (lru.entries (lru.Add k v c)) = lru.find k' (lru.entries c).
Proof.
  intros [v0 Hf] Hne. unfold lru.Add. rewrite Hf. simpl.
  rewrite decide_False by congruence. by apply lru_find_remove_key_ne.
Qed.

Lemma lru_length_removelast (l : list (K * V)) :
  l ≠ [] → length (removelast l) = pred (length l).
Proof.
  destruct l as [|a l]; [done|]. intros Hne.
  pose proof (List.app_removelast_last a Hne) as Heq.
  apply (f_equal length) in Heq. rewrite length_app in Heq. simpl length in Heq.
  simpl length. lia.
Qed.

Lemma cache_bounded_Get (n : Z) (k : K) (c : lru.Cache K V) :
  cache_bounded n c → cache_bounded n (lru.Get k c).2.
Proof.
  unfold cache_bounded, lru.Get. intros [Hs Hl].
  destruct (lru.find k (lru.entries c)) as [v|] eqn:Hf; simpl; [|done].
  split; [done|]. pose proof (lru_length_remove_key_found k v _ Hf). lia.
Qed.

Lemma cache_bounded_Add (n : Z) (k : K) (v : V) (c : lru.Cache K V) :
  cache_bounded n c → cache_bounded n (lru.Add k v c).
Proof.
  unfold cache_bounded, lru.Add. intros [Hs Hl].
  destruct (lru.find k (lru.entries c)) as [v0|] eqn:Hf; cbn [lru.entries lru.size].
  - split; [done|]. pose proof (lru_length_remove_key_found k v0 _ Hf).
    simpl length. lia.
  - split; [done|]. case_decide as Hfull.
    + rewrite lru_length_removelast by done. simpl length in *. lia.
    + simpl length in *. lia.
Qed.

Lemma cache_bounded_New (n : Z) : 0 < n → cache_bounded n (lru.mkCache (K := K) (V := V) n []).
Proof. unfold cache_bounded. simpl. lia. Qed.

End lru_more.

Section more_properties.
Context `{PosetTypes}.

(** ** What each method returns and the store it leaves *)

Lemma set_lastRound_max (s : InmemStore) (r : Z) :
  (if decide (r > lastRound s) then set_lastRound r s else s)
  = set_lastRound (Z.max (lastRound s) r) s.
Proof.
  destruct s. unfold set_lastRound. simpl. case_decide; f_equal; lia.
Qed.

Lemma set_lastBlock_max (s : InmemStore) (i : Z) :
  (if decide (i > lastBlock s) then set_lastBlock i s else s)
  = set_lastBlock (Z.max (lastBlock s) i) s.
Proof.
  destruct s. unfold set_lastBlock. simpl. case_decide; f_equal; lia.
Qed.

Lemma RootsBySelfParent_state (s : InmemStore) :
  RootsBySelfParent s =
    match rootsBySelfParent s with
    | None =>
        let m := build_rootsBySelfParent (map_range (rootsByParticipant s)) in
        ((m, None), set_rootsBySelfParent (Some m) s)
    | Some m => ((m, None), s)
    end.
Proof. reflexivity. Qed.

Lemma GetEventBlock_state (hash : EventHash) (s : InmemStore) :
  (GetEventBlock hash s).2 = set_eventCache (lru.Get hash (eventCache s)).2 s.
Proof.
  unfold GetEventBlock. destruct (lru.Get hash (eventCache s)) as [[e|] c]; done.
Qed.

Lemma GetEventBlock_result (hash : EventHash) (s : InmemStore) :
  (GetEventBlock hash s).1 =
    match lru.find hash (lru.entries (eventCache s)) with
    | Some e => (e, None)
    | None =>
        (Event_zero,
         Some (cm.NewStoreErr "EventCache" cm.KeyNotFound (EventHash_String hash)))
    end.
Proof.
  unfold GetEventBlock, lru.Get.
  destruct (lru.find hash (lru.entries (eventCache s))); done.
Qed.

(** The store [SetEvent] leaves, by the three ways the method can take. *)
Lemma SetEvent_state (event : Event) (s : InmemStore) :
  SetEvent event s =
    let h := Event_Hash event in
    let c := (lru.Get h (eventCache s)).2 in
    match lru.find h (lru.entries (eventCache s)) with
    | Some _ => (None, set_eventCache (lru.Add h event c) s)
    | None =>
        match ParticipantEventsCache.Set_ (Event_GetCreator event) h
                (Event_Index event) (participantEventsCache s) with
        | (Some err, pec) =>
            (Some err, set_participantEventsCache pec (set_eventCache c s))
        | (None, pec) =>
            (None, set_eventCache (lru.Add h event c)
                     (set_participantEventsCache pec s))
        end
    end.
Proof.
  unfold SetEvent, GetEventBlock, addParticpantEvent, lru.Get.
  destruct (lru.find (Event_Hash event) (lru.entries (eventCache s))); simpl; [done|].
  destruct (ParticipantEventsCache.Set_ _ _ _ _) as [[err|] pec]; done.
Qed.

Lemma GetRoundCreated_state (r : Z) (s : InmemStore) :
  (GetRoundCreated r s).2 = set_roundCreatedCache (lru.Get r (roundCreatedCache s)).2 s.
Proof.
  unfold GetRoundCreated. destruct (lru.Get r (roundCreatedCache s)) as [[e|] c]; done.
Qed.

Lemma GetRoundCreated_result (r : Z) (s : InmemStore) :
  (GetRoundCreated r s).1 =
    match lru.find r (lru.entries (roundCreatedCache s)) with
    | Some round => (round, None)
    | None =>
        (NewRoundCreated,
         Some (cm.NewStoreErr "RoundCreatedCache" cm.KeyNotFound (FormatInt r)))
    end.
Proof.
  unfold GetRoundCreated, lru.Get.
  destruct (lru.find r (lru.entries (roundCreatedCache s))); done.
Qed.

Lemma SetRoundCreated_state (r : Z) (round : RoundCreated) (s : InmemStore) :
  SetRoundCreated r round s =
    (None, set_lastRound (Z.max (lastRound s) r)
             (set_roundCreatedCache (lru.Add r round (roundCreatedCache s)) s)).
Proof.
  unfold SetRoundCreated.
  rewrite (set_lastRound_max
             (set_roundCreatedCache (lru.Add r round (roundCreatedCache s)) s) r).
  done.
Qed.

Lemma GetRoundReceived_state (r : Z) (s : InmemStore) :
  (GetRoundReceived r s).2 = set_roundReceivedCache (lru.Get r (roundReceivedCache s)).2 s.
Proof.
  unfold GetRoundReceived. destruct (lru.Get r (roundReceivedCache s)) as [[e|] c]; done.
Qed.

Lemma GetRoundReceived_result (r : Z) (s : InmemStore) :
  (GetRoundReceived r s).1 =
    match lru.find r (lru.entries (roundReceivedCache s)) with
    | Some round => (round, None)
    | None =>
        (NewRoundReceived,
         Some (cm.NewStoreErr "RoundReceivedCache" cm.KeyNotFound (FormatInt r)))
    end.
Proof.
  unfold GetRoundReceived, lru.Get.
  destruct (lru.find r (lru.entries (roundReceivedCache s))); done.
Qed.

Lemma SetRoundReceived_state (r : Z) (round : RoundReceived) (s : InmemStore) :
  SetRoundReceived r round s =
    (None, set_lastRound (Z.max (lastRound s) r)
             (set_roundReceivedCache (lru.Add r round (roundReceivedCache s)) s)).
Proof.
  unfold SetRoundReceived.
  rewrite (set_lastRound_max
             (set_roundReceivedCache (lru.Add r round (roundReceivedCache s)) s) r).
  done.
Qed.

Lemma RoundClothos_state (r : Z) (s : InmemStore) :
  (RoundClothos r s).2 = (GetRoundCreated r s).2.
Proof.
  unfold RoundClothos. destruct (GetRoundCreated r s) as [[round [err|]] s1]; done.
Qed.

Lemma RoundEvents_state (r : Z) (s : InmemStore) :
  (RoundEvents r s).2 = (GetRoundCreated r s).2.
Proof.
  unfold RoundEvents. destruct (GetRoundCreated r s) as [[round [err|]] s1]; done.
Qed.

Lemma GetBlock_state (index : Z) (s : InmemStore) :
  (GetBlock index s).2 = set_blockCache (lru.Get index (blockCache s)).2 s.
Proof.
  unfold GetBlock. destruct (lru.Get index (blockCache s)) as [[e|] c]; done.
Qed.

Lemma GetBlock_result (index : Z) (s : InmemStore) :
  (GetBlock index s).1 =
    match lru.find index (lru.entries (blockCache s)) with
    | Some b => (b, None)
    | None =>
        (Block_zero,
         Some (cm.NewStoreErr "BlockCache" cm.KeyNotFound (FormatInt index)))
    end.
Proof.
  unfold GetBlock, lru.Get.
  destruct (lru.find index (lru.entries (blockCache s))); done.
Qed.

Lemma SetBlock_state (block : Block) (s : InmemStore) :
  SetBlock block s =
    (None, set_lastBlock (Z.max (lastBlock s) (Block_Index block))
             (set_blockCache
                (lru.Add (Block_Index block) block
                   (lru.Get (Block_Index block) (blockCache s)).2) s)).
Proof.
  unfold SetBlock, GetBlock.
  destruct (lru.Get (Block_Index block) (blockCache s)) as [[b|] c]; simpl.
  - rewrite (set_lastBlock_max
               (set_blockCache (lru.Add (Block_Index block) block c)
                  (set_blockCache c s))). done.
  - rewrite (set_lastBlock_max
               (set_blockCache (lru.Add (Block_Index block) block c)
                  (set_blockCache c s))). done.
Qed.

Lemma GetFrame_state (index : Z) (s : InmemStore) :
  (GetFrame index s).2 = set_frameCache (lru.Get index (frameCache s)).2 s.
Proof.
  unfold GetFrame. destruct (lru.Get index (frameCache s)) as [[e|] c]; done.
Qed.

Lemma GetFrame_result (index : Z) (s : InmemStore) :
  (GetFrame index s).1 =
    match lru.find index (lru.entries (frameCache s)) with
    | Some f => (f, None)
    | None =>
        (Frame_zero,
         Some (cm.NewStoreErr "FrameCache" cm.KeyNotFound (FormatInt index)))
    end.
Proof.
  unfold GetFrame, lru.Get.
  destruct (lru.find index (lru.entries (frameCache s))); done.
Qed.

Lemma SetFrame_state (frame : Frame) (s : InmemStore) :
  SetFrame frame s =
    (None, set_frameCache
             (lru.Add (Frame_Round frame) frame
                (lru.Get (Frame_Round frame) (frameCache s)).2) s).
Proof.
  unfold SetFrame, GetFrame.
  destruct (lru.Get (Frame_Round frame) (frameCache s)) as [[f|] c]; done.
Qed.

Lemma AddConsensusEvent_state (event : Event) (s : InmemStore) :
  AddConsensusEvent event s =
    (None,
     set_lastConsensusEvents
       (<[Event_GetCreator event := Event_Hash event]> (lastConsensusEvents s))
       (set_totConsensusEvents (wrap64 (totConsensusEvents s + 1))
          (set_consensusCache
             (RollingIndex.Set_ (Event_Hash event) (totConsensusEvents s)
                (consensusCache s)).2 s))).
Proof.
  unfold AddConsensusEvent.
  destruct (RollingIndex.Set_ _ _ _) as [err c]. done.
Qed.

(** ** Round trips *)

(** X1: [SetBlock] never returns an error; the block it stored is what
    [GetBlock] returns for its index, [LastBlockIndex] becomes the maximum of
    its value and the index, and a block found under another index afterwards
    was there, the same, before. *)
Theorem SetBlock_GetBlock_round_trip (s : InmemStore) (b : Block) :
  0 < lru.size (blockCache s) →
  (SetBlock b s).1 = None
  ∧ (GetBlock (Block_Index b) (SetBlock b s).2).1 = (b, None)
  ∧ LastBlockIndex (SetBlock b s).2 = Z.max (LastBlockIndex s) (Block_Index b)
  ∧ (∀ j x, j ≠ Block_Index b →
       (GetBlock j (SetBlock b s).2).1 = (x, None) → (GetBlock j s).1 = (x, None)).
Proof.
  intros Hsize. rewrite SetBlock_state. simpl. split; [done|]. split; [|split; [done|]].
  - rewrite GetBlock_result. simpl. rewrite lru_find_Add; [done|].
    by rewrite lru_size_Get.
  - intros j x Hj. rewrite !GetBlock_result. simpl.
    destruct (lru.find j (lru.entries (lru.Add _ _ _))) as [y|] eqn:Hf; [|done].
    intros [= ->]. apply lru_find_Add_other in Hf; [|done].
    rewrite lru_find_Get in Hf. by rewrite Hf.
Qed.

(** X2: after [SetRoundCreated(r, round)], which returns no error,
    [GetRoundCreated(r)] returns [round], [RoundClothos(r)] its clothos and
    [RoundEvents(r)] the number of its events. *)
Theorem SetRoundCreated_round_trip (s : InmemStore) (r : Z) (round : RoundCreated) :
  0 < lru.size (roundCreatedCache s) →
  (SetRoundCreated r round s).1 = None
  ∧ (GetRoundCreated r (SetRoundCreated r round s).2).1 = (round, None)
  ∧ (RoundClothos r (SetRoundCreated r round s).2).1 = RoundCreated_Clotho round
  ∧ (RoundEvents r (SetRoundCreated r round s).2).1 = RoundCreated_Events_len round.
Proof.
  intros Hsize. rewrite SetRoundCreated_state. simpl. split; [done|].
  assert (lru.find r (lru.entries (lru.Add r round (roundCreatedCache s))) = Some round)
    as Hf by (by apply lru_find_Add).
  split; [|split].
  - rewrite GetRoundCreated_result. simpl. by rewrite Hf.
  - unfold RoundClothos, GetRoundCreated, lru.Get. simpl. by rewrite Hf.
  - unfold RoundEvents, GetRoundCreated, lru.Get. simpl. by rewrite Hf.
Qed.

(** X3: after [SetRoundReceived(r, round)], which returns no error,
    [GetRoundReceived(r)] returns [round]; created rounds and received rounds
    are kept apart: neither setter changes what the getter of the other kind
    returns, so a round that was only received has no clothos and no
    events. *)
Theorem SetRoundReceived_round_trip (s : InmemStore) (r : Z) (round : RoundReceived) :
  0 < lru.size (roundReceivedCache s) →
  (SetRoundReceived r round s).1 = None
  ∧ (GetRoundReceived r (SetRoundReceived r round s).2).1 = (round, None)
  ∧ (∀ r', (GetRoundCreated r' (SetRoundReceived r round s).2).1 = (GetRoundCreated r' s).1)
  ∧ (∀ r' rc, (GetRoundReceived r' (SetRoundCreated r rc s).2).1 = (GetRoundReceived r' s).1)
  ∧ (lru.find r (lru.entries (roundCreatedCache s)) = None →
       (RoundClothos r (SetRoundReceived r round s).2).1 = []
       ∧ (RoundEvents r (SetRoundReceived r round s).2).1 = 0).
Proof.
  intros Hsize. split; [by rewrite SetRoundReceived_state|].
  split; [|split; [|split]].
  - rewrite SetRoundReceived_state, GetRoundReceived_result. simpl.
    by rewrite lru_find_Add.
  - intros r'. by rewrite SetRoundReceived_state, !GetRoundCreated_result.
  - intros r' rc. by rewrite SetRoundCreated_state, !GetRoundReceived_result.
  - intros Hmiss. rewrite SetRoundReceived_state.
    unfold RoundClothos, RoundEvents, GetRoundCreated, lru.Get. simpl.
    by rewrite Hmiss.
Qed.

(** X4: [SetFrame] never returns an error and stores the frame under its
    round: [GetFrame(frame.Round)] returns it.  Unlike the round setters it
    leaves [LastRound] (and [LastBlockIndex]) as it is. *)
Theorem SetFrame_GetFrame_round_trip (s : InmemStore) (f : Frame) :
  0 < lru.size (frameCache s) →
  (SetFrame f s).1 = None
  ∧ (GetFrame (Frame_Round f) (SetFrame f s).2).1 = (f, None)
  ∧ LastRound (SetFrame f s).2 = LastRound s
  ∧ LastBlockIndex (SetFrame f s).2 = LastBlockIndex s.
Proof.
  intros Hsize. rewrite SetFrame_state. simpl. split; [done|]. split; [|done].
  rewrite GetFrame_result. simpl. rewrite lru_find_Add; [done|].
  by rewrite lru_size_Get.
Qed.

(** X5: after a [SetEvent(e)] without error, [GetEventBlock] returns e for
    e's hash.  A later [SetEvent] of any event with that hash succeeds
    without consulting the participant-events index, whatever its creator
    and index, and replaces what [GetEventBlock] returns. *)
Theorem SetEvent_GetEventBlock_round_trip (s s1 : InmemStore) (e : Event) :
  0 < lru.size (eventCache s) →
  SetEvent e s = (None, s1) →
  (GetEventBlock (Event_Hash e) s1).1 = (e, None)
  ∧ (∀ e', Event_Hash e' = Event_Hash e →
       (SetEvent e' s1).1 = None
       ∧ (GetEventBlock (Event_Hash e) (SetEvent e' s1).2).1 = (e', None)
       ∧ participantEventsCache (SetEvent e' s1).2 = participantEventsCache s1).
Proof.
  intros Hsize Hset.
  pose proof (SetEvent_cached s s1 e Hsize Hset) as Hfound.
  assert (lru.size (eventCache s1) = lru.size (eventCache s)) as Hsz.
  { rewrite SetEvent_state in Hset. simpl in Hset.
    destruct (lru.find (Event_Hash e) (lru.entries (eventCache s))).
    - injection Hset as <-. simpl. by rewrite lru_size_Add, lru_size_Get.
    - destruct (ParticipantEventsCache.Set_ _ _ _ _) as [[err|] pec]; [done|].
      injection Hset as <-. simpl. by rewrite lru_size_Add, lru_size_Get. }
  split.
  - rewrite GetEventBlock_result. by rewrite Hfound.
  - intros e' He'. rewrite SetEvent_state. simpl. rewrite He', Hfound. simpl.
    split; [done|]. split; [|done].
    rewrite GetEventBlock_result. simpl. rewrite lru_find_Add; [done|].
    rewrite lru_size_Get. lia.
Qed.

(** X6: when the event's hash is not cached and the participant-events
    index refuses it, [SetEvent] returns that error and does not store the
    event: every lookup in the event cache gives what it gave before, and
    [GetEventBlock] of the hash is still key-not-found. *)
Theorem SetEvent_refused_stores_nothing (s : InmemStore) (e : Event) (err : cm.StoreErr) :
  lru.find (Event_Hash e) (lru.entries (eventCache s)) = None →
  (ParticipantEventsCache.Set_ (Event_GetCreator e) (Event_Hash e) (Event_Index e)
     (participantEventsCache s)).1 = Some err →
  (SetEvent e s).1 = Some err
  ∧ (∀ h, (GetEventBlock h (SetEvent e s).2).1 = (GetEventBlock h s).1)
  ∧ cm.Is (GetEventBlock (Event_Hash e) (SetEvent e s).2).1.2 cm.KeyNotFound = true.
Proof.
  intros Hmiss Herr. rewrite SetEvent_state. simpl. rewrite Hmiss.
  destruct (ParticipantEventsCache.Set_ _ _ _ _) as [err' pec].
  simpl in Herr. subst err'. simpl. split; [done|].
  assert (∀ h, (GetEventBlock h
                  (set_participantEventsCache pec
                     (set_eventCache (lru.Get (Event_Hash e) (eventCache s)).2 s))).1
               = (GetEventBlock h s).1) as Hsame.
  { intros h. rewrite !GetEventBlock_result. simpl. by rewrite lru_find_Get. }
  split; [done|]. rewrite Hsame, GetEventBlock_result, Hmiss. done.
Qed.

(** ** Construction and [Reset] *)

(** X7: after [Reset(roots)] returns, no event and no created or received
    round is found any more ([GetEventBlock], [GetRoundCreated] and
    [GetRoundReceived] give key-not-found for every key, [RoundClothos] is
    empty and [RoundEvents] is 0), [GetRoot] answers from [roots] alone, and
    the cache size, the peer set and the two repertoires are as before. *)
Theorem Reset_clears_events_and_rounds
    (roots : GoMap Root) (s s' : InmemStore) (err : cm.error) :
  Reset roots s = Returns (err, s') →
  (∀ h, (GetEventBlock h s').1 =
          (Event_zero,
           Some (cm.NewStoreErr "EventCache" cm.KeyNotFound (EventHash_String h))))
  ∧ (∀ r, (GetRoundCreated r s').1 =
          (NewRoundCreated,
           Some (cm.NewStoreErr "RoundCreatedCache" cm.KeyNotFound (FormatInt r)))
          ∧ (RoundClothos r s').1 = [] ∧ (RoundEvents r s').1 = 0)
  ∧ (∀ r, (GetRoundReceived r s').1 =
          (NewRoundReceived,
           Some (cm.NewStoreErr "RoundReceivedCache" cm.KeyNotFound (FormatInt r))))
  ∧ (∀ p, GetRoot p s' =
          match roots !! p with
          | Some root => (root, None)
          | None => (Root_zero, Some (cm.NewStoreErr "RootCache" cm.KeyNotFound p))
          end)
  ∧ CacheSize s' = CacheSize s
  ∧ Participants s' = Participants s
  ∧ RepertoireByPubKey s' = RepertoireByPubKey s
  ∧ RepertoireByID s' = RepertoireByID s.
Proof.
  intros (_ & _ & ->)%Reset_inv.
  split; [done|]. split; [done|]. split; [done|]. split; [|done].
  intros p. unfold GetRoot. simpl. destruct (roots !! p); done.
Qed.

(** X8: in a newly constructed store [GetRoot] gives every public key of the
    peer set the base root of its peer, whose self-parent index is −1, and
    key-not-found with the zero root to every other key; the reverse root
    index is not built yet, and what [RootsBySelfParent] then builds has the
    hash of each of these base roots as a key. *)
Theorem NewInmemStore_roots (ps : peers.Peers) (n : Z) (s : InmemStore) :
  NewInmemStore ps n = Returns s →
  (∀ pk, GetRoot pk s =
           match peers.ByPubKey ps !! pk with
           | Some peer => (NewBaseRoot (peers.ID peer), None)
           | None => (Root_zero, Some (cm.NewStoreErr "RootCache" cm.KeyNotFound pk))
           end)
  ∧ (∀ pk root, (GetRoot pk s) = (root, None) → Index (Root_SelfParent root) = -1)
  ∧ rootsBySelfParent s = None
  ∧ (∀ pk peer, peers.ByPubKey ps !! pk = Some peer →
       is_Some ((RootsBySelfParent s).1.1 !! root_hash (NewBaseRoot (peers.ID peer)))).
Proof.
  intros Hnew. apply NewInmemStore_fields in Hnew.
  destruct Hnew as (_&_&_&_&_&_&_&_&_&_&_&Hroots&Hidx&_).
  assert (∀ pk, GetRoot pk s =
           match peers.ByPubKey ps !! pk with
           | Some peer => (NewBaseRoot (peers.ID peer), None)
           | None => (Root_zero, Some (cm.NewStoreErr "RootCache" cm.KeyNotFound pk))
           end) as Hget.
  { intros pk. unfold GetRoot. rewrite Hroots, lookup_Made, lookup_fmap.
    destruct (peers.ByPubKey ps !! pk); done. }
  split; [done|]. split; [|split; [done|]].
  - intros pk root. rewrite Hget. destruct (peers.ByPubKey ps !! pk); [|done].
    intros [= <-]. apply NewBaseRoot_Index.
  - intros pk peer Hpk. rewrite RootsBySelfParent_state, Hidx. simpl.
    apply (build_rootsBySelfParent_is_Some _ pk).
    rewrite Hroots. simpl. rewrite lookup_fmap, Hpk. done.
Qed.

(** X9: [NewInmemStore] ends the process exactly when [cacheSize] is not
    positive, and then with code 31: the exits 32 to 35 cannot be taken.
    Otherwise it returns a store with that cache size and peer set, with
    [LastRound] and [LastBlockIndex] at −1, no consensus events, and nothing
    in its caches. *)
Theorem NewInmemStore_outcome (ps : peers.Peers) (n : Z) :
  (n <= 0 → NewInmemStore ps n = Exits 31)
  ∧ (∀ code, NewInmemStore ps n = Exits code → code = 31 ∧ n <= 0)
  ∧ (0 < n → ∃ s, NewInmemStore ps n = Returns s
       ∧ CacheSize s = n ∧ Participants s = (ps, None)
       ∧ LastRound s = -1 ∧ LastBlockIndex s = -1
       ∧ ConsensusEventsCount s = 0 ∧ ConsensusEvents s = []
       ∧ (∀ h, cm.Is (GetEventBlock h s).1.2 cm.KeyNotFound = true)
       ∧ (∀ r, cm.Is (GetRoundCreated r s).1.2 cm.KeyNotFound = true)
       ∧ (∀ r, cm.Is (GetRoundReceived r s).1.2 cm.KeyNotFound = true)
       ∧ (∀ i, cm.Is (GetBlock i s).1.2 cm.KeyNotFound = true)
       ∧ (∀ i, cm.Is (GetFrame i s).1.2 cm.KeyNotFound = true)).
Proof.
  split; [|split].
  - intros Hn. unfold NewInmemStore, lru.New. by rewrite decide_True.
  - intros code. destruct (decide (0 < n)) as [Hpos|Hneg].
    + destruct (NewInmemStore_returns ps n Hpos) as [s ->]. done.
    + unfold NewInmemStore, lru.New. rewrite decide_True by lia.
      intros [= <-]. split; [done | lia].
  - intros Hpos. destruct (NewInmemStore_returns ps n Hpos) as [s Hs].
    exists s. split; [done|].
    pose proof (NewInmemStore_fields ps n s Hs) as
      (_&Hsize&Hps&Hev&Hrc&Hrr&Hbl&Hfr&Hcc&Htot&_&_&_&Hlr&Hlce&Hlb).
    unfold CacheSize, Participants, LastRound, LastBlockIndex, ConsensusEventsCount,
      ConsensusEvents.
    rewrite Hsize, Hps, Hlr, Hlb, Htot, Hcc.
    repeat (split; [done|]).
    split; [intros h; by rewrite GetEventBlock_result, Hev|].
    split; [intros r; by rewrite GetRoundCreated_result, Hrc|].
    split; [intros r; by rewrite GetRoundReceived_result, Hrr|].
    split; [intros i; by rewrite GetBlock_result, Hbl|].
    intros i; by rewrite GetFrame_result, Hfr.
Qed.

(** ** What every operation keeps *)

(** The states the operations leave, ready for a case analysis. *)
Ltac exec_states :=
  rewrite ?RoundClothos_state, ?RoundEvents_state;
  rewrite ?GetEventBlock_state, ?GetRoundCreated_state, ?GetRoundReceived_state,
    ?GetBlock_state, ?GetFrame_state, ?SetEvent_state, ?SetRoundCreated_state,
    ?SetRoundReceived_state, ?SetBlock_state, ?SetFrame_state,
    ?AddConsensusEvent_state, ?RootsBySelfParent_state;
  cbn zeta;
  repeat match goal with
         | |- context [match lru.find ?k ?l with _ => _ end] =>
             destruct (lru.find k l) eqn:?
         | |- context [match ParticipantEventsCache.Set_ ?p ?h ?i ?c with _ => _ end] =>
             let err := fresh "err" in
             let pec := fresh "pec" in
             destruct (ParticipantEventsCache.Set_ p h i c) as [[err|] pec] eqn:?
         | |- context [match rootsBySelfParent ?s with _ => _ end] =>
             destruct (rootsBySelfParent s) eqn:?
         end;
  cbn [fst snd].

Lemma exec_store_bounded (op : Op) (s : InmemStore) :
  store_bounded s →
  exec op s = Panics
  ∨ ∃ s', exec op s = Returns s' ∧ cacheSize s' = cacheSize s ∧ store_bounded s'.
Proof.
  intros (Hpos & He & Hrc & Hrr & Hb & Hf).
  destruct op; cbn [exec];
    try (rewrite (Reset_returns roots s Hpos); unfold after_Reset);
    try (destruct (rootsByParticipant s) as [|rts] eqn:Hr;
         [ left; by apply onNewPeer_NilMap
         | rewrite (onNewPeer_Made _ _ _ _ Hr); unfold peer_added ]);
    try (right;
    exec_states;
    (eexists; split; [reflexivity|]; split; [reflexivity|]);
    unfold store_bounded; simpl;
    repeat split; try lia;
    try assumption;
    try (apply cache_bounded_Add); try (apply cache_bounded_Get);
    try assumption;
    try (by apply cache_bounded_New);
    try (apply He); try (apply Hrc); try (apply Hrr); try (apply Hb); try (apply Hf)).
Qed.

Lemma NewInmemStore_store_bounded (ps : peers.Peers) (n : Z) (s : InmemStore) :
  NewInmemStore ps n = Returns s → cacheSize s = n ∧ store_bounded s.
Proof.
  intros Hnew. apply NewInmemStore_fields in Hnew.
  destruct Hnew as (Hpos&Hsize&_&Hev&Hrc&Hrr&Hbl&Hfr&_).
  split; [done|]. unfold store_bounded.
  rewrite Hsize, Hev, Hrc, Hrr, Hbl, Hfr.
  repeat split; try done; simpl; lia.
Qed.

Lemma run_store_bounded (ops : list Op) (s : InmemStore) :
  store_bounded s →
  run ops s = Panics
  ∨ ∃ s', run ops s = Returns s' ∧ cacheSize s' = cacheSize s ∧ store_bounded s'.
Proof.
  revert s. induction ops as [|op ops IH]; intros s Hb; simpl.
  - right. eauto.
  - destruct (exec_store_bounded op s Hb) as [-> | (s1 & -> & Hsize & Hb1)];
      [by left|].
    destruct (IH s1 Hb1) as [-> | (s' & Hrun & Hsize' & Hb')]; [by left|].
    right. exists s'. split; [done|]. split; [congruence | done].
Qed.

(** On a bounded store whose roots are not the nil map, an operation that is
    not a [Reset] with the nil map returns, and the roots it leaves are not
    the nil map. *)
Lemma exec_returns_made (op : Op) (s : InmemStore) :
  store_bounded s → is_NilMap (rootsByParticipant s) = false →
  is_Reset_nil op = false →
  ∃ s', exec op s = Returns s' ∧ is_NilMap (rootsByParticipant s') = false.
Proof.
  intros Hb Hmade Hop. destruct (is_Reset op) eqn:HR.
  - destruct op; try discriminate. destruct roots as [|roots]; [discriminate|].
    cbn [exec]. rewrite (Reset_returns _ s (proj1 Hb)). eauto.
  - by apply exec_returns.
Qed.

Lemma run_returns_made (ops : list Op) (s : InmemStore) :
  store_bounded s → is_NilMap (rootsByParticipant s) = false →
  Forall (λ op, is_Reset_nil op = false) ops →
  ∃ s', run ops s = Returns s'.
Proof.
  intros Hb Hmade Hops. revert s Hb Hmade.
  induction Hops as [|op ops Hop _ IH]; intros s Hb Hmade; simpl.
  - eauto.
  - destruct (exec_returns_made op s Hb Hmade Hop) as (s1 & Hex & Hmade1).
    destruct (exec_store_bounded op s Hb) as [Hp | (s1' & Hex' & _ & Hb1)];
      [congruence|].
    rewrite Hex. apply IH; [|done]. congruence.
Qed.

(** X10: on a store made by [NewInmemStore], no sequence of operations
    ([Reset] and the new-peer hook among them) ends the process, and a
    sequence in which [Reset] is never given the nil map returns.  Whenever a
    sequence returns, the cache size is the one given at construction and
    each of the five caches holds at most that many entries.  After a
    [Reset] with the nil map the new-peer hook panics. *)
Theorem constructed_store_stays_bounded
    (ps : peers.Peers) (n : Z) (s0 : InmemStore) (ops : list Op) :
  NewInmemStore ps n = Returns s0 →
  (∀ code, run ops s0 ≠ Exits code)
  ∧ (Forall (λ op, is_Reset_nil op = false) ops → ∃ s, run ops s0 = Returns s)
  ∧ (∀ s, run ops s0 = Returns s →
       CacheSize s = n
       ∧ store_bounded s
       ∧ Z.of_nat (length (lru.entries (eventCache s))) <= n
       ∧ Z.of_nat (length (lru.entries (roundCreatedCache s))) <= n
       ∧ Z.of_nat (length (lru.entries (roundReceivedCache s))) <= n
       ∧ Z.of_nat (length (lru.entries (blockCache s))) <= n
       ∧ Z.of_nat (length (lru.entries (frameCache s))) <= n)
  ∧ (∀ s ps' peer, run ops s0 = Returns s →
       run (ops ++ [OpReset NilMap; OpNewPeer ps' peer]) s0 = Panics).
Proof.
  intros Hnew. pose proof (NewInmemStore_store_bounded _ _ _ Hnew) as [Hsize Hb].
  pose proof (run_store_bounded ops s0 Hb) as Hrun.
  split; [|split; [|split]].
  - intros code Hex. destruct Hrun as [Hp | (s & Hs & _)]; congruence.
  - intros Hops. apply run_returns_made; [done| |done].
    apply NewInmemStore_fields in Hnew.
    destruct Hnew as (_&_&_&_&_&_&_&_&_&_&_&Hroots&_). by rewrite Hroots.
  - intros s Hs. destruct Hrun as [Hp | (s1 & Hs1 & Hsize' & Hb')]; [congruence|].
    assert (s1 = s) as -> by congruence.
    unfold CacheSize. split; [congruence|]. split; [done|].
    destruct Hb' as (_ & [_ H1] & [_ H2] & [_ H3] & [_ H4] & [_ H5]).
    rewrite Hsize', Hsize in *. done.
  - intros s ps' peer Hs. destruct Hrun as [Hp | (s1 & Hs1 & _ & Hb')]; [congruence|].
    assert (s1 = s) as -> by congruence.
    rewrite run_app, Hs. cbn [run exec].
    rewrite (Reset_returns _ s (proj1 Hb')).
    by rewrite onNewPeer_NilMap.
Qed.

(** X11: [Reset] ends the process exactly when the store's cache size is not
    positive, and then with code 41: the exits 42 and 45 cannot be taken.
    Otherwise it returns, with the store [after_Reset] describes. *)
Theorem Reset_outcome (roots : GoMap Root) (s : InmemStore) :
  (cacheSize s <= 0 → Reset roots s = Exits 41)
  ∧ (∀ code, Reset roots s = Exits code → code = 41 ∧ cacheSize s <= 0)
  ∧ (0 < cacheSize s → ∃ err, Reset roots s = Returns (err, after_Reset roots s)).
Proof.
  split; [apply Reset_exits|]. split.
  - intros code. destruct (decide (0 < cacheSize s)) as [Hpos|Hneg].
    + by rewrite Reset_returns.
    + rewrite Reset_exits by lia. intros [= <-]. split; [done | lia].
  - intros Hpos. exists None. by apply Reset_returns.
Qed.

Lemma Returns_inj {A : Type} (a b : A) : Returns a = Returns b → a = b.
Proof. by intros [= ->]. Qed.

(** The store an operation has returned, put in place of its name. *)
Ltac returned Hex s' :=
  first [ apply onNewPeer_inv in Hex as (? & ? & ->); unfold peer_added
        | apply Returns_inj in Hex; subst s' ].

Lemma exec_roots_index_current (op : Op) (s s' : InmemStore) :
  exec op s = Returns s' → roots_index_current s → roots_index_current s'.
Proof.
  unfold roots_index_current. intros Hex Hcur.
  destruct op; cbn [exec] in Hex;
    try (returned Hex s'; revert Hcur;
         exec_states; simpl; intros Hcur m Hm;
         first [ by apply Hcur | congruence | by (apply Hcur; congruence) ]).
  destruct (Reset roots s) as [[err s1]| |] eqn:HR; [|done..].
  apply Returns_inj in Hex. subst s'. apply Reset_inv in HR as (_ & _ & ->).
  simpl. intros m [= <-]. done.
Qed.

Lemma run_roots_index_current (ops : list Op) (s s' : InmemStore) :
  run ops s = Returns s' → roots_index_current s → roots_index_current s'.
Proof.
  revert s. induction ops as [|op ops IH]; intros s; simpl.
  - by intros [= <-].
  - destruct (exec op s) as [s1| |] eqn:Hex; [|done..].
    intros Hrun Hcur. apply (IH s1 Hrun). by apply (exec_roots_index_current op s).
Qed.

(** X12: the reverse root index is never stale.  On a store made by
    [NewInmemStore], after any sequence of operations, [RootsBySelfParent]
    returns, with no error, the index built from the roots the store has at
    that moment: each root [GetRoot] returns has its self-parent hash as a
    key, and each entry is a root that [GetRoot] returns for some
    participant, under its own hash. *)
Theorem RootsBySelfParent_never_stale
    (ps : peers.Peers) (n : Z) (s0 s : InmemStore) (ops : list Op) :
  NewInmemStore ps n = Returns s0 →
  run ops s0 = Returns s →
  (RootsBySelfParent s).1 =
    (build_rootsBySelfParent (map_range (rootsByParticipant s)), None)
  ∧ (∀ p root, GetRoot p s = (root, None) →
       is_Some ((RootsBySelfParent s).1.1 !! root_hash root))
  ∧ (∀ h root, (RootsBySelfParent s).1.1 !! h = Some root →
       root_hash root = h ∧ ∃ p, GetRoot p s = (root, None)).
Proof.
  intros Hnew Hrun.
  assert (roots_index_current s) as Hcur.
  { apply (run_roots_index_current ops s0 s Hrun).
    apply NewInmemStore_fields in Hnew.
    destruct Hnew as (_&_&_&_&_&_&_&_&_&_&_&_&Hidx&_).
    intros m. by rewrite Hidx. }
  assert ((RootsBySelfParent s).1 =
            (build_rootsBySelfParent (map_range (rootsByParticipant s)), None)) as Heq.
  { rewrite RootsBySelfParent_state.
    destruct (rootsBySelfParent s) as [m|] eqn:Hm; [|done].
    simpl. by rewrite (Hcur m Hm). }
  split; [done|]. rewrite Heq. simpl. split.
  - intros p root. unfold GetRoot.
    destruct (rootsByParticipant s !! p) as [r|] eqn:Hp; [|done].
    intros [= ->]. by apply (build_rootsBySelfParent_is_Some _ p).
  - intros h root Hh.
    destruct (build_rootsBySelfParent_lookup _ h root Hh) as [Hhash [p Hp]].
    split; [done|]. exists p. unfold GetRoot.
    rewrite <- lookup_map_content. by rewrite Hp.
Qed.

(** *** The last round and the last block *)

Lemma exec_lastRound_lastBlock (op : Op) (s s' : InmemStore) :
  is_Reset op = false → exec op s = Returns s' →
  lastRound s' =
    match op with
    | OpSetRoundCreated r _ | OpSetRoundReceived r _ => Z.max (lastRound s) r
    | _ => lastRound s
    end
  ∧ lastBlock s' =
    match op with
    | OpSetBlock b => Z.max (lastBlock s) (Block_Index b)
    | _ => lastBlock s
    end.
Proof.
  intros Hop Hex.
  destruct op; try discriminate; cbn [exec] in Hex;
    returned Hex s'; exec_states; done.
Qed.

Lemma exec_lastRound_lastBlock_ge (op : Op) (s s' : InmemStore) :
  exec op s = Returns s' →
  -1 <= lastRound s → -1 <= lastBlock s → -1 <= lastRound s' ∧ -1 <= lastBlock s'.
Proof.
  intros Hex Hr Hb. destruct (is_Reset op) eqn:Hop.
  - destruct op; try discriminate. cbn [exec] in Hex.
    destruct (Reset roots s) as [[err s1]| |] eqn:HR; [|done..].
    apply Returns_inj in Hex. subst s'. apply Reset_inv in HR as (_ & _ & ->).
    simpl. lia.
  - destruct (exec_lastRound_lastBlock op s s' Hop Hex) as [-> ->].
    destruct op; lia.
Qed.

(** X13: [LastRound] and [LastBlockIndex] never decrease in a sequence of
    operations without [Reset]; only [SetRoundCreated] and
    [SetRoundReceived] change the first and only [SetBlock] the second, each
    to the maximum of the value and the key set.  With [Reset] allowed too,
    neither ever goes below the sentinel −1 once it is at least −1. *)
Theorem LastRound_LastBlockIndex_evolve (ops : list Op) (s s' : InmemStore) :
  run ops s = Returns s' →
  (Forall (λ op, is_Reset op = false) ops →
     LastRound s <= LastRound s' ∧ LastBlockIndex s <= LastBlockIndex s')
  ∧ (-1 <= LastRound s → -1 <= LastBlockIndex s →
     -1 <= LastRound s' ∧ -1 <= LastBlockIndex s')
  ∧ (∀ op t t', is_Reset op = false → exec op t = Returns t' →
       LastRound t' =
         match op with
         | OpSetRoundCreated r _ | OpSetRoundReceived r _ => Z.max (LastRound t) r
         | _ => LastRound t
         end
       ∧ LastBlockIndex t' =
         match op with
         | OpSetBlock b => Z.max (LastBlockIndex t) (Block_Index b)
         | _ => LastBlockIndex t
         end).
Proof.
  unfold LastRound, LastBlockIndex. intros Hrun.
  split; [|split; [|apply exec_lastRound_lastBlock]].
  - intros Hops. revert s Hrun.
    induction Hops as [|op ops Hop _ IH]; intros s Hrun; simpl in Hrun.
    + apply Returns_inj in Hrun. subst. lia.
    + destruct (exec op s) as [s1| |] eqn:Hex; [|done..].
      destruct (exec_lastRound_lastBlock op s s1 Hop Hex) as [Hr Hb].
      destruct (IH s1 Hrun) as [Hr' Hb'].
      split; [rewrite <- Hr', Hr | rewrite <- Hb', Hb]; destruct op; lia.
  - revert s Hrun. induction ops as [|op ops IH]; intros s Hrun Hr Hb; simpl in Hrun.
    + apply Returns_inj in Hrun. by subst.
    + destruct (exec op s) as [s1| |] eqn:Hex; [|done..].
      destruct (exec_lastRound_lastBlock_ge op s s1 Hex Hr Hb) as [Hr1 Hb1].
      by apply (IH s1).
Qed.

Ltac within_finish Hw :=
  let r0 := fresh "r0" in
  let x := fresh "x" in
  let Hf := fresh "Hf" in
  intros r0 x Hf; rewrite ?lru_find_Get in Hf;
  first
    [ by eapply Hw
    | done
    | (pose proof (Hw _ _ Hf); lia)
    | (match type of Hf with
       | lru.find _ (lru.entries (lru.Add ?k _ _)) = _ =>
           destruct (decide (r0 = k)) as [->|?]; [lia|];
           apply lru_find_Add_other in Hf; [|done];
           rewrite ?lru_find_Get in Hf; pose proof (Hw _ _ Hf); lia
       end) ].

Lemma exec_rounds_within_lastRound (op : Op) (s s' : InmemStore) :
  exec op s = Returns s' → rounds_within_lastRound s → rounds_within_lastRound s'.
Proof.
  unfold rounds_within_lastRound. intros Hex [Hc Hr].
  destruct op; cbn [exec] in Hex;
    try (returned Hex s'; exec_states;
         simpl; (split; [within_finish Hc | within_finish Hr])).
  destruct (Reset roots s) as [[err s1]| |] eqn:HR; [|done..].
  apply Returns_inj in Hex. subst s'. apply Reset_inv in HR as (_ & _ & ->).
  simpl. split; done.
Qed.

Lemma exec_blocks_within_lastBlock (op : Op) (s s' : InmemStore) :
  is_Reset op = false →
  exec op s = Returns s' → blocks_within_lastBlock s → blocks_within_lastBlock s'.
Proof.
  unfold blocks_within_lastBlock. intros Hop Hex Hb.
  destruct op; try discriminate; cbn [exec] in Hex;
    returned Hex s'; exec_states;
    simpl; within_finish Hb.
Qed.

(** X14: on a store made by [NewInmemStore], after any sequence of
    operations, every round that [GetRoundCreated] or [GetRoundReceived]
    finds is at most [LastRound()]; and as long as [Reset] was not called,
    every index at which [GetBlock] finds a block is at most
    [LastBlockIndex()]. *)
Theorem found_rounds_and_blocks_within_last
    (ps : peers.Peers) (n : Z) (s0 s : InmemStore) (ops : list Op) :
  NewInmemStore ps n = Returns s0 →
  run ops s0 = Returns s →
  (∀ r x, (GetRoundCreated r s).1 = (x, None) → r <= LastRound s)
  ∧ (∀ r x, (GetRoundReceived r s).1 = (x, None) → r <= LastRound s)
  ∧ (Forall (λ op, is_Reset op = false) ops →
     ∀ i b, (GetBlock i s).1 = (b, None) → i <= LastBlockIndex s).
Proof.
  intros Hnew Hrun.
  pose proof (NewInmemStore_fields ps n s0 Hnew) as
    (_&_&_&_&Hrc&Hrr&Hbl&_).
  assert (rounds_within_lastRound s) as [Hc Hr].
  { assert (rounds_within_lastRound s0) as Hw0.
    { unfold rounds_within_lastRound. rewrite Hrc, Hrr. split; done. }
    clear Hnew Hrc Hrr Hbl. revert s0 Hrun Hw0.
    induction ops as [|op ops IH]; intros s0 Hrun Hw0; simpl in Hrun.
    - apply Returns_inj in Hrun. by subst.
    - destruct (exec op s0) as [s1| |] eqn:Hex; [|done..].
      apply (IH s1 Hrun). by apply (exec_rounds_within_lastRound op s0). }
  unfold LastRound, LastBlockIndex. split; [|split].
  - intros r x. rewrite GetRoundCreated_result.
    destruct (lru.find r _) as [y|] eqn:Hf; [|done]. intros _. by apply (Hc r y).
  - intros r x. rewrite GetRoundReceived_result.
    destruct (lru.find r _) as [y|] eqn:Hf; [|done]. intros _. by apply (Hr r y).
  - intros Hops.
    assert (blocks_within_lastBlock s) as Hb.
    { assert (blocks_within_lastBlock s0) as Hw0.
      { unfold blocks_within_lastBlock. rewrite Hbl. done. }
      clear Hnew Hrc Hrr Hbl Hc Hr. revert s0 Hrun Hw0.
      induction Hops as [|op ops Hop _ IH]; intros s0 Hrun Hw0; simpl in Hrun.
      - apply Returns_inj in Hrun. by subst.
      - destruct (exec op s0) as [s1| |] eqn:Hex; [|done..].
        apply (IH s1 Hrun). by apply (exec_blocks_within_lastBlock op s0). }
    intros i b. rewrite GetBlock_result.
    destruct (lru.find i _) as [y|] eqn:Hf; [|done]. intros _. by apply (Hb i y).
Qed.

(** ** Lookups do not change what is stored *)

Lemma set_eventCache_same (s : InmemStore) : set_eventCache (eventCache s) s = s.
Proof. by destruct s. Qed.

Lemma set_roundCreatedCache_same (s : InmemStore) :
  set_roundCreatedCache (roundCreatedCache s) s = s.
Proof. by destruct s. Qed.

Lemma set_roundReceivedCache_same (s : InmemStore) :
  set_roundReceivedCache (roundReceivedCache s) s = s.
Proof. by destruct s. Qed.

Lemma set_blockCache_same (s : InmemStore) : set_blockCache (blockCache s) s = s.
Proof. by destruct s. Qed.

Lemma set_frameCache_same (s : InmemStore) : set_frameCache (frameCache s) s = s.
Proof. by destruct s. Qed.

(** X15: the five getters that go through an LRU cache only move the entry
    they find to the front: any getter of the same kind returns afterwards
    what it would have returned before, and a lookup that finds nothing
    leaves the store exactly as it was. *)
Theorem getters_change_no_answer (s : InmemStore) :
  (∀ h h', (GetEventBlock h' (GetEventBlock h s).2).1 = (GetEventBlock h' s).1)
  ∧ (∀ r r', (GetRoundCreated r' (GetRoundCreated r s).2).1 = (GetRoundCreated r' s).1)
  ∧ (∀ r r', (GetRoundReceived r' (GetRoundReceived r s).2).1 = (GetRoundReceived r' s).1)
  ∧ (∀ i i', (GetBlock i' (GetBlock i s).2).1 = (GetBlock i' s).1)
  ∧ (∀ i i', (GetFrame i' (GetFrame i s).2).1 = (GetFrame i' s).1)
  ∧ (∀ h, cm.Is (GetEventBlock h s).1.2 cm.KeyNotFound = true → (GetEventBlock h s).2 = s)
  ∧ (∀ r, cm.Is (GetRoundCreated r s).1.2 cm.KeyNotFound = true → (GetRoundCreated r s).2 = s)
  ∧ (∀ r, cm.Is (GetRoundReceived r s).1.2 cm.KeyNotFound = true → (GetRoundReceived r s).2 = s)
  ∧ (∀ i, cm.Is (GetBlock i s).1.2 cm.KeyNotFound = true → (GetBlock i s).2 = s)
  ∧ (∀ i, cm.Is (GetFrame i s).1.2 cm.KeyNotFound = true → (GetFrame i s).2 = s).
Proof.
  repeat split.
  - intros h h'. rewrite GetEventBlock_state, !GetEventBlock_result. simpl.
    by rewrite lru_find_Get.
  - intros r r'. rewrite GetRoundCreated_state, !GetRoundCreated_result. simpl.
    by rewrite lru_find_Get.
  - intros r r'. rewrite GetRoundReceived_state, !GetRoundReceived_result. simpl.
    by rewrite lru_find_Get.
  - intros i i'. rewrite GetBlock_state, !GetBlock_result. simpl.
    by rewrite lru_find_Get.
  - intros i i'. rewrite GetFrame_state, !GetFrame_result. simpl.
    by rewrite lru_find_Get.
  - intros h. rewrite GetEventBlock_result, GetEventBlock_state.
    destruct (lru.find h _) eqn:Hf; [done|]. intros _.
    rewrite (lru_Get_miss _ _ Hf). apply set_eventCache_same.
  - intros r. rewrite GetRoundCreated_result, GetRoundCreated_state.
    destruct (lru.find r _) eqn:Hf; [done|]. intros _.
    rewrite (lru_Get_miss _ _ Hf). apply set_roundCreatedCache_same.
  - intros r. rewrite GetRoundReceived_result, GetRoundReceived_state.
    destruct (lru.find r _) eqn:Hf; [done|]. intros _.
    rewrite (lru_Get_miss _ _ Hf). apply set_roundReceivedCache_same.
  - intros i. rewrite GetBlock_result, GetBlock_state.
    destruct (lru.find i _) eqn:Hf; [done|]. intros _.
    rewrite (lru_Get_miss _ _ Hf). apply set_blockCache_same.
  - intros i. rewrite GetFrame_result, GetFrame_state.
    destruct (lru.find i _) eqn:Hf; [done|]. intros _.
    rewrite (lru_Get_miss _ _ Hf). apply set_frameCache_same.
Qed.

(** ** The last consensus event of a participant *)

(** X16: without a recorded consensus event of p,
    [LastConsensusEventFrom(p)] falls back to p's root (the root's
    self-parent hash, [isRoot = true], no error), or returns a no-root error
    and the zero hash when p has no root.  [AddConsensusEvent(e)] changes the
    answer for e's creator alone, and of two events of one creator the later
    one is the answer. *)
Theorem LastConsensusEventFrom_fallback_and_frame (s : InmemStore) (p : string) :
  (lastConsensusEvents s !! p = None →
     (∀ root, rootsByParticipant s !! p = Some root →
        LastConsensusEventFrom p s = (root_hash root, true, None))
     ∧ (rootsByParticipant s !! p = None →
        LastConsensusEventFrom p s =
          (EventHash_zero, false,
           Some (cm.NewStoreErr "InmemStore.Roots" cm.NoRoot p))))
  ∧ (∀ e, Event_GetCreator e ≠ p →
       LastConsensusEventFrom p (AddConsensusEvent e s).2 = LastConsensusEventFrom p s)
  ∧ (∀ e e', Event_GetCreator e = p → Event_GetCreator e' = p →
       LastConsensusEventFrom p (AddConsensusEvent e' (AddConsensusEvent e s).2).2
       = (Event_Hash e', false, None)).
Proof.
  split; [|split].
  - intros Hnone. unfold LastConsensusEventFrom. rewrite Hnone. split.
    + intros root ->. done.
    + intros ->. done.
  - intros e Hne. rewrite AddConsensusEvent_state. unfold LastConsensusEventFrom.
    simpl. by rewrite lookup_insert_ne.
  - intros e e' He He'. rewrite !AddConsensusEvent_state. unfold LastConsensusEventFrom.
    simpl. rewrite He'. by rewrite lookup_insert_eq.
Qed.

(** ** Peers *)

(** X17: on a store whose roots are the nil map (after a [Reset] with nil)
    the new-peer hook panics.  Otherwise it returns; it gives the peer a
    base root, whatever root its public key had, and enters it into both
    repertoires; the roots and repertoire entries of other keys stay, the
    reverse root index is rebuilt at once from the new roots and has the
    hash of the new base root as a key, and the rounds, blocks and consensus
    events are not touched. *)
Theorem onNewPeer_registers (ps : peers.Peers) (peer : peers.Peer) (s : InmemStore) :
  match rootsByParticipant s with
  | NilMap => onNewPeer ps peer s = Panics
  | Made _ =>
      ∃ s', onNewPeer ps peer s = Returns s'
      ∧ GetRoot (peers.PubKeyHex peer) s' = (NewBaseRoot (peers.ID peer), None)
      ∧ (∀ q, q ≠ peers.PubKeyHex peer → GetRoot q s' = GetRoot q s)
      ∧ RepertoireByPubKey s' !! peers.PubKeyHex peer = Some peer
      ∧ RepertoireByID s' !! peers.ID peer = Some peer
      ∧ (∀ q, q ≠ peers.PubKeyHex peer →
           RepertoireByPubKey s' !! q = RepertoireByPubKey s !! q)
      ∧ (∀ i, i ≠ peers.ID peer → RepertoireByID s' !! i = RepertoireByID s !! i)
      ∧ rootsBySelfParent s'
        = Some (build_rootsBySelfParent (map_range (rootsByParticipant s')))
      ∧ is_Some ((RootsBySelfParent s').1.1 !! root_hash (NewBaseRoot (peers.ID peer)))
      ∧ LastRound s' = LastRound s
      ∧ LastBlockIndex s' = LastBlockIndex s
      ∧ ConsensusEventsCount s' = ConsensusEventsCount s
      ∧ ConsensusEvents s' = ConsensusEvents s
      ∧ CacheSize s' = CacheSize s
  end.
Proof.
  destruct (rootsByParticipant s) as [|roots] eqn:Hr.
  - by apply onNewPeer_NilMap.
  - exists (peer_added ps peer roots s). split; [by apply onNewPeer_Made|].
    unfold GetRoot, RepertoireByPubKey, RepertoireByID. simpl. rewrite Hr.
    split; [by rewrite lookup_Made, lookup_insert_eq|].
    split; [intros q Hq; by rewrite !lookup_Made, lookup_insert_ne|].
    split; [by rewrite lookup_insert_eq|].
    split; [by rewrite lookup_insert_eq|].
    split; [intros q Hq; by rewrite lookup_insert_ne|].
    split; [intros i Hi; by rewrite lookup_insert_ne|].
    split; [done|]. split; [|done].
    apply (build_rootsBySelfParent_is_Some _ (peers.PubKeyHex peer)).
    by rewrite lookup_insert_eq.
Qed.

Lemma setPeers_repertoireByID (round : Z) (ps : peers.Peers) (s : InmemStore) :
  repertoireByID (setPeers round ps s) =
    foldl (λ m e, <[peers.ID e.2 := e.2]> m) (repertoireByID s) (map_range (peers.ByID ps)).
Proof.
  unfold setPeers. generalize (map_range (peers.ByID ps)) as l. intros l. revert s.
  induction l as [|[k peer] l IH]; intros s; simpl; [done|]. by rewrite IH.
Qed.

Lemma setPeers_repertoireByPubKey (round : Z) (ps : peers.Peers) (s : InmemStore) :
  repertoireByPubKey (setPeers round ps s) =
    foldl (λ m e, <[peers.PubKeyHex e.2 := e.2]> m) (repertoireByPubKey s)
      (map_range (peers.ByID ps)).
Proof.
  unfold setPeers. generalize (map_range (peers.ByID ps)) as l. intros l. revert s.
  induction l as [|[k peer] l IH]; intros s; simpl; [done|]. by rewrite IH.
Qed.

Lemma foldl_insert_list_to_map `{Countable K} {A B : Type}
    (f : B → K) (g : B → A) (l : list B) :
  foldl (λ m e, <[f e := g e]> m) (∅ : gmap K A) l
  = list_to_map (reverse ((λ e, (f e, g e)) <$> l)).
Proof.
  induction l as [|e l IH] using rev_ind; [done|].
  rewrite foldl_app, fmap_app, reverse_app. simpl. by rewrite IH.
Qed.

(** X18: [NewInmemStore] fills the two repertoires from the peer set's
    [ByID] map.  Every peer of [ByID] is found in [RepertoireByID] under its
    own id and in [RepertoireByPubKey] under its own key, and the repertoires
    hold nothing else; when [ByID] files each peer under the peer's id,
    [RepertoireByID] is that map. *)
Theorem NewInmemStore_repertoires (ps : peers.Peers) (n : Z) (s : InmemStore) :
  NewInmemStore ps n = Returns s →
  (∀ k peer, peers.ByID ps !! k = Some peer →
     is_Some (RepertoireByID s !! peers.ID peer)
     ∧ is_Some (RepertoireByPubKey s !! peers.PubKeyHex peer))
  ∧ (∀ i peer, RepertoireByID s !! i = Some peer →
       peers.ID peer = i ∧ ∃ k, peers.ByID ps !! k = Some peer)
  ∧ (∀ pk peer, RepertoireByPubKey s !! pk = Some peer →
       peers.PubKeyHex peer = pk ∧ ∃ k, peers.ByID ps !! k = Some peer)
  ∧ ((∀ k peer, peers.ByID ps !! k = Some peer → peers.ID peer = k) →
       RepertoireByID s = peers.ByID ps).
Proof.
  intros (_ & ->)%NewInmemStore_inv. unfold RepertoireByID, RepertoireByPubKey.
  rewrite setPeers_repertoireByID, setPeers_repertoireByPubKey. simpl.
  rewrite !foldl_insert_list_to_map.
  split; [|split; [|split]].
  - intros k peer Hk%map_range_elem_of. split.
    + apply not_eq_None_Some. rewrite <- not_elem_of_list_to_map. intros Hnot.
      apply Hnot. rewrite fmap_reverse, elem_of_reverse, <- list_fmap_compose.
      apply list_elem_of_fmap. by exists (k, peer).
    + apply not_eq_None_Some. rewrite <- not_elem_of_list_to_map. intros Hnot.
      apply Hnot. rewrite fmap_reverse, elem_of_reverse, <- list_fmap_compose.
      apply list_elem_of_fmap. by exists (k, peer).
  - intros i peer Hin%elem_of_list_to_map_2. rewrite elem_of_reverse in Hin.
    apply list_elem_of_fmap in Hin as ([k x] & [= -> ->] & Hin).
    split; [done|]. exists k. by apply map_range_elem_of.
  - intros pk peer Hin%elem_of_list_to_map_2. rewrite elem_of_reverse in Hin.
    apply list_elem_of_fmap in Hin as ([k x] & [= -> ->] & Hin).
    split; [done|]. exists k. by apply map_range_elem_of.
  - intros Hkeyed.
    assert ((λ e : Z * peers.Peer, (peers.ID e.2, e.2)) <$> map_range (peers.ByID ps)
            = map_range (peers.ByID ps)) as ->.
    { rewrite <- (list_fmap_id (map_range (peers.ByID ps))) at 2.
      apply list_fmap_ext. intros i [k peer] Hin%list_elem_of_lookup_2.
      apply map_range_elem_of in Hin. simpl. by rewrite (Hkeyed k peer Hin). }
    rewrite <- (list_to_map_to_list (peers.ByID ps)) at 2.
    apply list_to_map_proper.
    + rewrite fmap_reverse, reverse_Permutation.
      rewrite (map_range_perm Z peers.Peer (peers.ByID ps)).
      apply NoDup_fst_map_to_list.
    + rewrite reverse_Permutation. apply map_range_perm.
Qed.

(** ** Stored events and ordered events *)

(** X19: the event cache and the consensus order do not look at one
    another.  [AddConsensusEvent(e)] does not store e: [GetEventBlock] and
    [ParticipantEvents] answer as before, so an event can be ordered that the
    store does not hold.  [SetEvent] in turn leaves [ConsensusEvents],
    [ConsensusEventsCount] and [LastConsensusEventFrom] as they are. *)
Theorem stored_and_ordered_events_apart (s : InmemStore) (e : Event) :
  (∀ h, (GetEventBlock h (AddConsensusEvent e s).2).1 = (GetEventBlock h s).1)
  ∧ (∀ p skip, ParticipantEvents p skip (AddConsensusEvent e s).2
               = ParticipantEvents p skip s)
  ∧ ConsensusEvents (SetEvent e s).2 = ConsensusEvents s
  ∧ ConsensusEventsCount (SetEvent e s).2 = ConsensusEventsCount s
  ∧ (∀ p, LastConsensusEventFrom p (SetEvent e s).2 = LastConsensusEventFrom p s).
Proof.
  split; [|split].
  - intros h. by rewrite AddConsensusEvent_state, !GetEventBlock_result.
  - intros p skip. by rewrite AddConsensusEvent_state.
  - unfold ConsensusEvents, ConsensusEventsCount.
    rewrite cc_SetEvent, tot_SetEvent. split; [done|]. split; [done|].
    intros p. unfold LastConsensusEventFrom. rewrite SetEvent_state. cbn zeta.
    destruct (lru.find _ _); [done|].
    destruct (ParticipantEventsCache.Set_ _ _ _ _) as [[err|] pec]; done.
Qed.

End more_properties.

(** * The further properties on the concrete instance *)

Lemma SetBlock_GetBlock_round_trip_witness :
  0 < lru.size (blockCache Demo.fresh)
  ∧ (SetBlock Demo.block2 Demo.fresh).1 = None
  ∧ (GetBlock 2 (SetBlock Demo.block2 Demo.fresh).2).1 = (Demo.block2, None)
  ∧ LastBlockIndex (SetBlock Demo.block2 Demo.fresh).2 = 2.
Proof.
  split; [reflexivity|].
  destruct (SetBlock_GetBlock_round_trip Demo.fresh Demo.block2)
    as (Herr & Hget & Hlast & _); [reflexivity|].
  split; [exact Herr|]. split; [exact Hget|]. rewrite Hlast. reflexivity.
Defined.

Lemma SetRoundCreated_round_trip_witness :
  0 < lru.size (roundCreatedCache Demo.fresh)
  ∧ (GetRoundCreated 5 (SetRoundCreated 5 Demo.round5 Demo.fresh).2).1
    = (Demo.round5, None)
  ∧ (RoundClothos 5 (SetRoundCreated 5 Demo.round5 Demo.fresh).2).1 = [[x01]]
  ∧ (RoundEvents 5 (SetRoundCreated 5 Demo.round5 Demo.fresh).2).1 = 2.
Proof.
  split; [reflexivity|].
  destruct (SetRoundCreated_round_trip Demo.fresh 5 Demo.round5)
    as (_ & Hget & Hclotho & Hevents); [reflexivity|].
  split; [exact Hget|]. split; [exact Hclotho | exact Hevents].
Defined.

Lemma SetRoundReceived_round_trip_witness :
  0 < lru.size (roundReceivedCache Demo.fresh)
  ∧ (GetRoundReceived 5 (SetRoundReceived 5 Demo.received5 Demo.fresh).2).1
    = (Demo.received5, None)
  ∧ (RoundClothos 5 (SetRoundReceived 5 Demo.received5 Demo.fresh).2).1 = []
  ∧ (RoundEvents 5 (SetRoundReceived 5 Demo.received5 Demo.fresh).2).1 = 0.
Proof.
  split; [reflexivity|].
  destruct (SetRoundReceived_round_trip Demo.fresh 5 Demo.received5)
    as (_ & Hget & _ & _ & Hnone); [reflexivity|].
  split; [exact Hget|]. apply Hnone. reflexivity.
Defined.

Lemma SetFrame_GetFrame_round_trip_witness :
  0 < lru.size (frameCache Demo.fresh)
  ∧ (GetFrame 5 (SetFrame Demo.frame5 Demo.fresh).2).1 = (Demo.frame5, None)
  ∧ LastRound (SetFrame Demo.frame5 Demo.fresh).2 = -1.
Proof.
  split; [reflexivity|].
  destruct (SetFrame_GetFrame_round_trip Demo.fresh Demo.frame5)
    as (_ & Hget & Hlast & _); [reflexivity|].
  split; [exact Hget|]. rewrite Hlast. reflexivity.
Defined.

Lemma SetEvent_GetEventBlock_round_trip_witness :
  0 < lru.size (eventCache Demo.fresh)
  ∧ SetEvent Demo.E1 Demo.fresh = (None, (SetEvent Demo.E1 Demo.fresh).2)
  ∧ (GetEventBlock (Event_Hash Demo.E1) (SetEvent Demo.E1 Demo.fresh).2).1
    = (Demo.E1, None)
  ∧ (GetEventBlock (Event_Hash Demo.E1)
       (SetEvent Demo.E1b (SetEvent Demo.E1 Demo.fresh).2).2).1 = (Demo.E1b, None).
Proof.
  split; [reflexivity|]. split; [reflexivity|].
  destruct (SetEvent_GetEventBlock_round_trip Demo.fresh
              (SetEvent Demo.E1 Demo.fresh).2 Demo.E1) as (Hget & Hagain);
    [reflexivity | reflexivity |].
  split; [exact Hget|].
  destruct (Hagain Demo.E1b) as (_ & Hget' & _); [reflexivity | exact Hget'].
Defined.

Lemma SetEvent_refused_stores_nothing_witness :
  lru.find (Event_Hash Demo.E9) (lru.entries (eventCache Demo.fresh)) = None
  ∧ (ParticipantEventsCache.Set_ (Event_GetCreator Demo.E9) (Event_Hash Demo.E9)
       (Event_Index Demo.E9) (participantEventsCache Demo.fresh)).1
    = Some (cm.NewStoreErr "ParticipantEvents" cm.SkippedIndex (pretty 9))
  ∧ (SetEvent Demo.E9 Demo.fresh).1
    = Some (cm.NewStoreErr "ParticipantEvents" cm.SkippedIndex (pretty 9))
  ∧ cm.Is (GetEventBlock (Event_Hash Demo.E9) (SetEvent Demo.E9 Demo.fresh).2).1.2
      cm.KeyNotFound = true.
Proof.
  split; [reflexivity|]. split; [reflexivity|].
  destruct (SetEvent_refused_stores_nothing Demo.fresh Demo.E9
              (cm.NewStoreErr "ParticipantEvents" cm.SkippedIndex (pretty 9)))
    as (Herr & _ & Hmiss); [reflexivity | reflexivity |].
  split; [exact Herr | exact Hmiss].
Defined.

Lemma Reset_clears_events_and_rounds_witness :
  Reset Demo.roots1 Demo.used = Returns (None, after_Reset Demo.roots1 Demo.used)
  ∧ cm.Is (GetEventBlock (Event_Hash Demo.E1) Demo.used).1.2 cm.KeyNotFound = false
  ∧ cm.Is (GetEventBlock (Event_Hash Demo.E1)
             (after_Reset Demo.roots1 Demo.used)).1.2 cm.KeyNotFound = true
  ∧ (RoundClothos 5 (after_Reset Demo.roots1 Demo.used)).1 = []
  ∧ GetRoot "P1" (after_Reset Demo.roots1 Demo.used) = (Demo.newRoot, None).
Proof.
  split; [apply Reset_returns; reflexivity|]. split; [reflexivity|].
  destruct (Reset_clears_events_and_rounds Demo.roots1 Demo.used
              (after_Reset Demo.roots1 Demo.used) None)
    as (Hev & Hrc & _ & Hroot & _); [apply Reset_returns; reflexivity|].
  split; [rewrite Hev; reflexivity|].
  split; [apply (Hrc 5)|]. rewrite Hroot. reflexivity.
Defined.

Lemma NewInmemStore_roots_witness :
  NewInmemStore Demo.one_peer 2 = Returns Demo.fresh
  ∧ GetRoot "P1" Demo.fresh = (NewBaseRoot 1, None)
  ∧ cm.Is (GetRoot "P2" Demo.fresh).2 cm.KeyNotFound = true
  ∧ is_Some ((RootsBySelfParent Demo.fresh).1.1 !! root_hash (NewBaseRoot 1)).
Proof.
  split; [apply fresh_is_new|].
  destruct (NewInmemStore_roots Demo.one_peer 2 Demo.fresh fresh_is_new)
    as (Hget & _ & _ & Hkey).
  split; [rewrite Hget; reflexivity|]. split; [rewrite Hget; reflexivity|].
  apply (Hkey "P1" Demo.P1). reflexivity.
Defined.

Lemma constructed_store_stays_bounded_witness :
  NewInmemStore Demo.one_peer 2 = Returns Demo.fresh
  ∧ (∃ s, run [OpSetEvent Demo.E1; OpSetEvent Demo.E2; OpSetEvent Demo.E9;
               OpReset Demo.roots1; OpNewPeer Demo.two_peers Demo.P2;
               OpAddConsensusEvent Demo.E1] Demo.fresh
          = Returns s
          ∧ CacheSize s = 2
          ∧ Z.of_nat (length (lru.entries (eventCache s))) <= 2)
  ∧ run ([OpSetEvent Demo.E1; OpSetEvent Demo.E2; OpSetEvent Demo.E9;
          OpReset Demo.roots1; OpNewPeer Demo.two_peers Demo.P2;
          OpAddConsensusEvent Demo.E1]
         ++ [OpReset NilMap; OpNewPeer Demo.two_peers Demo.P2]) Demo.fresh
    = Panics.
Proof.
  split; [apply fresh_is_new|].
  destruct (constructed_store_stays_bounded Demo.one_peer 2 Demo.fresh
              [OpSetEvent Demo.E1; OpSetEvent Demo.E2; OpSetEvent Demo.E9;
               OpReset Demo.roots1; OpNewPeer Demo.two_peers Demo.P2;
               OpAddConsensusEvent Demo.E1] fresh_is_new)
    as (_ & Hret & Hb & Hpanic).
  destruct Hret as [s Hrun]; [repeat constructor|].
  split.
  - exists s. split; [exact Hrun|].
    destruct (Hb s Hrun) as (Hsize & _ & Hev & _).
    split; [exact Hsize | exact Hev].
  - apply (Hpanic s). exact Hrun.
Defined.

Lemma RootsBySelfParent_never_stale_witness :
  NewInmemStore Demo.one_peer 2 = Returns Demo.fresh
  ∧ run [OpRootsBySelfParent; OpReset Demo.roots1] Demo.fresh
    = Returns (after_Reset Demo.roots1 (RootsBySelfParent Demo.fresh).2)
  ∧ is_Some ((RootsBySelfParent
                (after_Reset Demo.roots1 (RootsBySelfParent Demo.fresh).2)).1.1
             !! root_hash Demo.newRoot).
Proof.
  split; [apply fresh_is_new|].
  assert (run [OpRootsBySelfParent; OpReset Demo.roots1] Demo.fresh
          = Returns (after_Reset Demo.roots1 (RootsBySelfParent Demo.fresh).2)) as Hrun.
  { cbn [run exec]. rewrite Reset_returns by reflexivity. reflexivity. }
  split; [exact Hrun|].
  destruct (RootsBySelfParent_never_stale Demo.one_peer 2 Demo.fresh _ _
              fresh_is_new Hrun) as (_ & Hkey & _).
  apply (Hkey "P1"). reflexivity.
Defined.

Lemma LastRound_LastBlockIndex_evolve_witness :
  run [OpSetRoundCreated 5 Demo.round5; OpSetBlock Demo.block2;
       OpSetRoundReceived 3 Demo.received5; OpSetBlock Demo.block1] Demo.fresh
  = Returns
      (SetBlock Demo.block1
         (SetRoundReceived 3 Demo.received5
            (SetBlock Demo.block2
               (SetRoundCreated 5 Demo.round5 Demo.fresh).2).2).2).2
  ∧ LastRound Demo.fresh
    <= LastRound
         (SetBlock Demo.block1
            (SetRoundReceived 3 Demo.received5
               (SetBlock Demo.block2
                  (SetRoundCreated 5 Demo.round5 Demo.fresh).2).2).2).2
  ∧ LastBlockIndex Demo.fresh
    <= LastBlockIndex
         (SetBlock Demo.block1
            (SetRoundReceived 3 Demo.received5
               (SetBlock Demo.block2
                  (SetRoundCreated 5 Demo.round5 Demo.fresh).2).2).2).2.
Proof.
  split; [reflexivity|].
  destruct (LastRound_LastBlockIndex_evolve
              [OpSetRoundCreated 5 Demo.round5; OpSetBlock Demo.block2;
               OpSetRoundReceived 3 Demo.received5; OpSetBlock Demo.block1]
              Demo.fresh
              (SetBlock Demo.block1
                 (SetRoundReceived 3 Demo.received5
                    (SetBlock Demo.block2
                       (SetRoundCreated 5 Demo.round5 Demo.fresh).2).2).2).2)
    as (Hmono & _); [reflexivity|].
  apply Hmono. repeat constructor.
Defined.

Lemma found_rounds_and_blocks_within_last_witness :
  NewInmemStore Demo.one_peer 2 = Returns Demo.fresh
  ∧ run [OpSetRoundCreated 5 Demo.round5; OpSetRoundCreated 3 Demo.round5] Demo.fresh
    = Returns (SetRoundCreated 3 Demo.round5
                 (SetRoundCreated 5 Demo.round5 Demo.fresh).2).2
  ∧ (GetRoundCreated 3
       (SetRoundCreated 3 Demo.round5
          (SetRoundCreated 5 Demo.round5 Demo.fresh).2).2).1 = (Demo.round5, None)
  ∧ 3 <= LastRound (SetRoundCreated 3 Demo.round5
                      (SetRoundCreated 5 Demo.round5 Demo.fresh).2).2.
Proof.
  split; [apply fresh_is_new|]. split; [reflexivity|]. split; [reflexivity|].
  destruct (found_rounds_and_blocks_within_last Demo.one_peer 2 Demo.fresh
              (SetRoundCreated 3 Demo.round5
                 (SetRoundCreated 5 Demo.round5 Demo.fresh).2).2
              [OpSetRoundCreated 5 Demo.round5; OpSetRoundCreated 3 Demo.round5]
              fresh_is_new) as (Hc & _); [reflexivity|].
  apply (Hc 3 Demo.round5). reflexivity.
Defined.

Lemma NewInmemStore_repertoires_witness :
  NewInmemStore Demo.one_peer 2 = Returns Demo.fresh
  ∧ RepertoireByID Demo.fresh = peers.ByID Demo.one_peer
  ∧ is_Some (RepertoireByPubKey Demo.fresh !! "P1").
Proof.
  split; [apply fresh_is_new|].
  destruct (NewInmemStore_repertoires Demo.one_peer 2 Demo.fresh fresh_is_new)
    as (Hin & _ & _ & Heq).
  split.
  - apply Heq. intros k peer Hk.
    change (({[ 1 := Demo.P1 ]} : gmap Z peers.Peer) !! k = Some peer) in Hk.
    apply lookup_singleton_Some in Hk as [<- <-]. reflexivity.
  - destruct (Hin 1 Demo.P1) as [_ Hpk]; [reflexivity | exact Hpk].
Defined.
